(** * Tron light cycles: the simulation core of game.ts

    A shallow embedding of the [TronGame] class (grid and trail model,
    decision engine, tick loop, round lifecycle) and the properties of its
    specification.

    Conventions of the embedding.
    - Grid coordinates, identifiers, scores, counters and timestamps are
      integer-valued JavaScript numbers; they are modelled as [Z]
      (timestamps in whole milliseconds).
    - The softmax of [makeAIDecision] is the only place where non-integer
      numbers are computed.  Its arithmetic is taken from a [World], the
      record of everything the class obtains from its host: the number
      operations, the values returned by [Math.random()], and the two
      particle helpers of the renderer.  Theorems proved for every [World]
      hold whatever the arithmetic is; [Doubles] interprets the numbers as
      IEEE 754 binary64 values, which is what JavaScript numbers are.
    - [Math.random()] is a stream [random : nat -> Num]; the game state
      carries the number of draws made so far ([rng]).
    - [performance.now()] is the argument [now] of [reset] and [update]. *)

From Stdlib Require Import ZArith List Bool Lia String Sorted SpecFloat.
From stdpp Require Import base list.
Import ListNotations.

Open Scope Z_scope.

(* ================================================================== *)
(** ** Data model *)
(* ================================================================== *)

Inductive Direction := UP | DOWN | LEFT | RIGHT.

Inductive GameState := PLAYING | RESTARTING.

Record Point := mkPoint { x : Z; y : Z }.

Record LightCycle := mkCycle {
  id : Z;
  position : Point;
  direction : Direction;
  color : string;
  glowColor : string;
  alive : bool;
  pathfindingMemory : list Point;
  lastDirectionChange : Z;
  movesSinceDirectionChange : Z;
}.

(** The fields of [TronGame]; [config] is only read by [draw] and is left
    out.  [rng] counts the calls of [Math.random()] made so far. *)
Record TronGame (P : Type) := mkGame {
  grid : list (list Z);
  cycles : list LightCycle;
  trailGrid : list (list Z);
  state : GameState;
  score : Z;
  speed : Z;
  lastMoveTime : Z;
  particles : list P;
  restartDelay : Z;
  restartTime : Z;
  gameStartTime : Z;
  frameCount : Z;
  rng : nat;
}.

Arguments mkGame {P}.
Arguments grid {P}.
Arguments cycles {P}.
Arguments trailGrid {P}.
Arguments state {P}.
Arguments score {P}.
Arguments speed {P}.
Arguments lastMoveTime {P}.
Arguments particles {P}.
Arguments restartDelay {P}.
Arguments restartTime {P}.
Arguments gameStartTime {P}.
Arguments frameCount {P}.
Arguments rng {P}.

(** The host of the simulation. *)
Record World (P : Type) := mkWorld {
  Num : Type;
  ofZ : Z -> Num;
  temperature : Num;
  nadd : Num -> Num -> Num;
  nmul : Num -> Num -> Num;
  ndiv : Num -> Num -> Num;
  nexp : Num -> Num;
  nle : Num -> Num -> bool;
  nfloor : Num -> Z;
  random : nat -> Num;
  createExplosion : Z -> Z -> list Num -> list P;
  updateParticles : list P -> list P;
}.

Arguments Num {P}.
Arguments ofZ {P}.
Arguments temperature {P}.
Arguments nadd {P}.
Arguments nmul {P}.
Arguments ndiv {P}.
Arguments nexp {P}.
Arguments nle {P}.
Arguments nfloor {P}.
Arguments random {P}.
Arguments createExplosion {P}.
Arguments updateParticles {P}.

Definition Direction_eqb (a b : Direction) : bool :=
  match a, b with
  | UP, UP | DOWN, DOWN | LEFT, LEFT | RIGHT, RIGHT => true
  | _, _ => false
  end.

Definition Point_eqb (p q : Point) : bool :=
  (x p =? x q) && (y p =? y q).

Definition allDirections : list Direction := [UP; DOWN; LEFT; RIGHT].

#[global] Instance Direction_eq_dec : EqDecision Direction.
Proof. solve_decision. Defined.

#[global] Instance Point_eq_dec : EqDecision Point.
Proof. solve_decision. Defined.

(* ================================================================== *)
(** ** Grid and trail model *)
(* ================================================================== *)

Definition getOppositeDirection (d : Direction) : Direction :=
  match d with
  | UP => DOWN
  | DOWN => UP
  | LEFT => RIGHT
  | RIGHT => LEFT
  end.

Definition getNextPositionInDirection (pos : Point) (d : Direction) : Point :=
  match d with
  | UP => mkPoint (x pos + 0) (y pos + -1)
  | DOWN => mkPoint (x pos + 0) (y pos + 1)
  | LEFT => mkPoint (x pos + -1) (y pos + 0)
  | RIGHT => mkPoint (x pos + 1) (y pos + 0)
  end.

Definition isValidPosition (pos : Point) : bool :=
  (0 <=? x pos) && (x pos <? 52) && (0 <=? y pos) && (y pos <? 7).

(** [m[pos.y][pos.x]] for a matrix stored as an array of rows; [None] is
    JavaScript's [undefined] (a negative or too large index). *)
Definition cellAt (m : list (list Z)) (pos : Point) : option Z :=
  if (y pos <? 0) || (x pos <? 0) then None
  else match m !! Z.to_nat (y pos) with
       | Some row => row !! Z.to_nat (x pos)
       | None => None
       end.

(** [m[pos.y][pos.x] = v], used on valid positions only. *)
Definition setCell (m : list (list Z)) (pos : Point) (v : Z) : list (list Z) :=
  alter (fun row => <[Z.to_nat (x pos) := v]> row) (Z.to_nat (y pos)) m.

(** [Array(7).fill(null).map(() => Array(52).fill(0))] *)
Definition emptyTrail : list (list Z) := replicate 7 (replicate 52 0).

(** The trail always has 7 rows of 52 cells ([trailShape] below), so a
    valid position always finds its cell; the [None] branch is never taken
    and is given the value of [undefined !== 0]. *)
Definition checkCollision (tg : list (list Z)) (pos : Point) : bool :=
  if negb (isValidPosition pos) then true
  else match cellAt tg pos with
       | Some v => negb (v =? 0)
       | None => true
       end.

(* ================================================================== *)
(** ** Decision engine: candidates and features *)
(* ================================================================== *)

Definition getSafeDirections (tg : list (list Z)) (cycle : LightCycle)
  : list Direction :=
  List.filter
    (fun dir =>
       if Direction_eqb (getOppositeDirection (direction cycle)) dir then false
       else negb (checkCollision tg
                    (getNextPositionInDirection (position cycle) dir)))
    allDirections.

Definition countFutureOptions (tg : list (list Z)) (pos : Point)
    (currentDir : Direction) : Z :=
  let opposite := getOppositeDirection currentDir in
  Z.of_nat (length (List.filter
    (fun dir =>
       if Direction_eqb dir opposite then false
       else negb (checkCollision tg (getNextPositionInDirection pos dir)))
    allDirections)).

(** The two nested [for] loops of [countOpenSpaceAround], [dy] outermost. *)
Definition countOpenSpaceAround (tg : list (list Z)) (pos : Point)
    (radius : Z) : Z :=
  let range := seqZ (- radius) (2 * radius + 1) in
  fold_left (fun count dy =>
    fold_left (fun count dx =>
      if (dx =? 0) && (dy =? 0) then count
      else
        let checkPos := mkPoint (x pos + dx) (y pos + dy) in
        if isValidPosition checkPos && negb (checkCollision tg checkPos)
        then count + 1 else count) range count) range 0.

(** The look-ahead loop of feature 1: [n] iterations left. *)
Fixpoint safetyLoop (n : nat) (tg : list (list Z)) (checkPos : Point)
    (d : Direction) (safetyDistance : Z) : Z :=
  match n with
  | O => safetyDistance
  | S n' =>
      if checkCollision tg checkPos then safetyDistance
      else safetyLoop n' tg (getNextPositionInDirection checkPos d) d
             (safetyDistance + 1)
  end.

Record Features := mkFeatures {
  safetyDistance : Z;
  openSpace : Z;
  edgeDistance : Z;
  pathDiversity : Z;
  continuity : Z;
  exploration : Z;
  avoidance : Z;
  futureOptions : Z;
}.

Definition extractFeatures (g : list (list Z)) (tg : list (list Z))
    (cycle : LightCycle) (d : Direction) : Features :=
  let nextPos := getNextPositionInDirection (position cycle) d in
  let recentlyVisited :=
    Z.of_nat (length (List.filter
      (fun p => (Z.abs (x p - x nextPos) <=? 2)
                && (Z.abs (y p - y nextPos) <=? 2))
      (pathfindingMemory cycle))) in
  {| safetyDistance := safetyLoop 10 tg nextPos d 0;
     openSpace := countOpenSpaceAround tg nextPos 2;
     edgeDistance :=
       Z.min (Z.min (x nextPos) (51 - x nextPos))
             (Z.min (y nextPos) (6 - y nextPos));
     pathDiversity := Z.max 0 (10 - recentlyVisited);
     continuity := if Direction_eqb d (direction cycle) then 1 else 0;
     exploration :=
       match cellAt g nextPos with
       | Some v => if v <=? 1 then 1 else 0
       | None => 0
       end;
     avoidance := if checkCollision tg nextPos then 1 else 0;
     futureOptions := countFutureOptions tg nextPos d |}.

Definition neuralEvaluateDirection (g : list (list Z)) (tg : list (list Z))
    (cycle : LightCycle) (d : Direction) : Z :=
  let features := extractFeatures g tg cycle d in
  safetyDistance features * 15
  + openSpace features * 8
  + edgeDistance features * 5
  + pathDiversity features * 3
  + continuity features * 2
  + exploration features * 4
  + avoidance features * (-20)
  + futureOptions features * 6.

(** [evaluations.sort((a, b) => b.score - a.score)]: a stable sort by
    decreasing score. *)
Definition Evaluation : Type := Direction * Z.

Fixpoint insertEvaluation (e : Evaluation) (l : list Evaluation)
  : list Evaluation :=
  match l with
  | [] => [e]
  | e' :: l' =>
      if snd e' <=? snd e then e :: e' :: l'
      else e' :: insertEvaluation e l'
  end.

Fixpoint sortEvaluations (l : list Evaluation) : list Evaluation :=
  match l with
  | [] => []
  | e :: l' => insertEvaluation e (sortEvaluations l')
  end.

(* ================================================================== *)
(** ** Decision engine: stochastic selection; the tick; the lifecycle *)
(* ================================================================== *)

Section Game.
Context {P : Type} (W : World P).

Local Abbreviation Game := (TronGame P).

(** [directions[Math.floor(Math.random() * directions.length)]], with
    [r] the value drawn.  [Math.random()] returns a number in [0, 1), so
    the index is in range; the default of [nth] is never used then. *)
Definition getRandomDirection (r : Num W) : Direction :=
  nth (Z.to_nat (nfloor W (nmul W r (ofZ W 4)))) allDirections UP.

(** [expScores], [sumExp] and [probabilities] of [makeAIDecision]. *)
Definition expScores (evaluations : list Evaluation) : list (Num W) :=
  map (fun e => nexp W (ndiv W (ofZ W (snd e)) (temperature W))) evaluations.

Definition sumExp (evaluations : list Evaluation) : Num W :=
  fold_left (fun sum exp => nadd W sum exp) (expScores evaluations) (ofZ W 0).

Definition probabilities (evaluations : list Evaluation) : list (Num W) :=
  map (fun exp => ndiv W exp (sumExp evaluations)) (expScores evaluations).

(** The weighted random selection loop; [None] when the loop ends without
    returning. *)
Fixpoint selectLoop (evaluations : list Evaluation) (probs : list (Num W))
    (rnd cumulative : Num W) : option Direction :=
  match evaluations, probs with
  | e :: evaluations', p :: probs' =>
      let cumulative' := nadd W cumulative p in
      if nle W rnd cumulative' then Some (fst e)
      else selectLoop evaluations' probs' rnd cumulative'
  | _, _ => None
  end.

(** Everything after the sort, for sorted [evaluations] and the drawn
    number [rnd]; [fallback] stands for [evaluations[0]] of an empty
    array, which [makeAIDecision] never builds. *)
Definition softmaxSelect (evaluations : list Evaluation) (rnd : Num W)
    (fallback : Direction) : Direction :=
  match selectLoop evaluations (probabilities evaluations) rnd (ofZ W 0) with
  | Some d => d
  | None =>
      match evaluations with
      | e :: _ => fst e
      | [] => fallback
      end
  end.

(** Returns the heading and the number of draws made afterwards. *)
Definition makeAIDecision (g tg : list (list Z)) (n : nat)
    (cycle : LightCycle) : Direction * nat :=
  let possibleDirections := getSafeDirections tg cycle in
  match possibleDirections with
  | [] => (direction cycle, n)
  | _ =>
      let evaluations :=
        sortEvaluations
          (map (fun dir => (dir, neuralEvaluateDirection g tg cycle dir))
             possibleDirections) in
      (softmaxSelect evaluations (random W n) (direction cycle), S n)
  end.

(** [createExplosion(x, y)]: 12 particles, three draws each. *)
Definition explosion (p : Point) (n : nat) : list P :=
  createExplosion W (x p) (y p) (map (random W) (seq n 36)).

Definition colors : list (string * string) :=
  [ ("#00ffff", "#00ffff"); ("#ff4757", "#ff4757");
    ("#ffa502", "#ffa502"); ("#7bed9f", "#7bed9f") ]%string.

Definition corners : list Point :=
  [ mkPoint 8 1; mkPoint 43 1; mkPoint 8 5; mkPoint 43 5 ].

Definition getStartPositions (count : nat) : list Point :=
  take (Nat.min count (length corners)) corners.

(** The loop of [createCycles]; [i] is the loop index and cycle [i] takes
    draw [n + i]. *)
Definition createCycles (n : nat) : list LightCycle :=
  let startPositions := getStartPositions (length colors) in
  imap (fun i c =>
          {| id := Z.of_nat i + 1;
             position := nth i startPositions (mkPoint 0 0);
             direction := getRandomDirection (random W (n + i)%nat);
             color := fst c;
             glowColor := snd c;
             alive := true;
             pathfindingMemory := [];
             lastDirectionChange := 0;
             movesSinceDirectionChange := 0 |})
       colors.

Definition placeCycle (tg : list (list Z)) (cycle : LightCycle)
  : list (list Z) :=
  if isValidPosition (position cycle)
  then setCell tg (position cycle) (id cycle) else tg.

Definition reset (now : Z) (s : Game) : Game :=
  let cs := createCycles (rng s) in
  {| grid := grid s;
     cycles := cs;
     trailGrid := fold_left placeCycle cs emptyTrail;
     state := PLAYING;
     score := 0;
     speed := 200;
     lastMoveTime := 0;
     particles := [];
     restartDelay := restartDelay s;
     restartTime := restartTime s;
     gameStartTime := now;
     frameCount := 0;
     rng := (rng s + length colors)%nat |}.

(** [new TronGame(grid, config)] *)
Definition newGame (g : list (list Z)) (now : Z) : Game :=
  reset now
    {| grid := g; cycles := []; trailGrid := emptyTrail;
       state := PLAYING; score := 0; speed := 0; lastMoveTime := 0;
       particles := []; restartDelay := 1000; restartTime := 0;
       gameStartTime := 0; frameCount := 0; rng := 0 |}.

Definition aliveCycles (s : Game) : list LightCycle :=
  List.filter alive (cycles s).

(** The indices of the elements of [aliveCycles]: the array holds
    references to the objects of [this.cycles], so the loop body below
    reads and writes [cycles] at the index. *)
Definition aliveIndices (cs : list LightCycle) : list nat :=
  List.filter (fun i => match cs !! i with
                        | Some c => alive c
                        | None => false
                        end) (seq 0 (length cs)).

Definition initiateRestart (currentTime : Z) (s : Game) : Game :=
  let booms :=
    fold_left
      (fun acc cycle =>
         (fst acc ++ explosion (position cycle) (snd acc), (snd acc + 36)%nat))
      (aliveCycles s) (particles s, rng s) in
  {| grid := grid s; cycles := cycles s; trailGrid := trailGrid s;
     state := RESTARTING;
     score := score s; speed := speed s; lastMoveTime := lastMoveTime s;
     particles := fst booms;
     restartDelay := restartDelay s;
     restartTime := currentTime;
     gameStartTime := gameStartTime s; frameCount := frameCount s;
     rng := snd booms |}.

Definition withCycle (s : Game) (i : nat) (c : LightCycle)
    (tg : list (list Z)) (ps : list P) (n : nat) : Game :=
  {| grid := grid s; cycles := <[i := c]> (cycles s); trailGrid := tg;
     state := state s; score := score s; speed := speed s;
     lastMoveTime := lastMoveTime s; particles := ps;
     restartDelay := restartDelay s; restartTime := restartTime s;
     gameStartTime := gameStartTime s; frameCount := frameCount s;
     rng := n |}.

(** [pathfindingMemory.push(p)] followed by the bounded [shift()]. *)
Definition remember (memory : list Point) (p : Point) : list Point :=
  let memory' := memory ++ [p] in
  if (20 <? length memory')%nat then tail memory' else memory'.

(** The body of [aliveCycles.forEach] for the cycle at index [i]. *)
Definition moveCycle (s : Game) (i : nat) : Game :=
  match cycles s !! i with
  | None => s
  | Some cycle =>
      let '(newDirection, n) :=
        makeAIDecision (grid s) (trailGrid s) (rng s) cycle in
      let changed := negb (Direction_eqb newDirection (direction cycle)) in
      let nextPos :=
        getNextPositionInDirection (position cycle) newDirection in
      let turned stillAlive pos memory :=
        {| id := id cycle; position := pos; direction := newDirection;
           color := color cycle; glowColor := glowColor cycle;
           alive := stillAlive;
           pathfindingMemory := memory;
           lastDirectionChange :=
             if changed then frameCount s else lastDirectionChange cycle;
           movesSinceDirectionChange :=
             if changed then 0 else movesSinceDirectionChange cycle + 1 |} in
      if checkCollision (trailGrid s) nextPos then
        withCycle s i
          (turned false (position cycle) (pathfindingMemory cycle))
          (trailGrid s)
          (particles s ++ explosion (position cycle) n) (n + 36)%nat
      else
        withCycle s i
          (turned (alive cycle) nextPos
             (remember (pathfindingMemory cycle) (position cycle)))
          (if isValidPosition (position cycle)
           then setCell (trailGrid s) (position cycle) (id cycle)
           else trailGrid s)
          (particles s) n
  end.

Definition trailLength (tg : list (list Z)) : Z :=
  Z.of_nat (length (List.filter (fun cell => 0 <? cell) (concat tg))).

(** [this.frameCount++] and the particle update that open [update]. *)
Definition tickFrame (s : Game) : Game :=
  {| grid := grid s; cycles := cycles s; trailGrid := trailGrid s;
     state := state s; score := score s; speed := speed s;
     lastMoveTime := lastMoveTime s;
     particles := updateParticles W (particles s);
     restartDelay := restartDelay s; restartTime := restartTime s;
     gameStartTime := gameStartTime s;
     frameCount := frameCount s + 1;
     rng := rng s |}.

(** The end of a move step: score, speed and [lastMoveTime]. *)
Definition settle (currentTime : Z) (activeCycles : Z) (s : Game) : Game :=
  let survivalTime := (currentTime - gameStartTime s) / 1000 in
  {| grid := grid s; cycles := cycles s; trailGrid := trailGrid s;
     state := state s;
     score := survivalTime * 10 + activeCycles * 5
              + trailLength (trailGrid s);
     speed := Z.max 80
                (200 - ((currentTime - gameStartTime s) / (1000 * 10)) * 20);
     lastMoveTime := currentTime;
     particles := particles s;
     restartDelay := restartDelay s; restartTime := restartTime s;
     gameStartTime := gameStartTime s; frameCount := frameCount s;
     rng := rng s |}.

Definition update (currentTime now : Z) (s : Game) : Game :=
  let s1 := tickFrame s in
  match state s1 with
  | RESTARTING =>
      if restartDelay s1 <? currentTime - restartTime s1
      then reset now s1 else s1
  | PLAYING =>
      if currentTime - lastMoveTime s1 <? speed s1 then s1
      else
        let moving := aliveIndices (cycles s1) in
        if (length moving <=? 1)%nat then initiateRestart currentTime s1
        else
          settle currentTime (Z.of_nat (length moving))
            (fold_left moveCycle moving s1)
  end.

Definition forceRestart (now : Z) (s : Game) : Game := reset now s.

(** The states the class can be in: built by the constructor and advanced
    by its public methods that change it, [update] and [forceRestart]. *)
Inductive reachable : Game -> Prop :=
| reachable_new g now : reachable (newGame g now)
| reachable_update s currentTime now :
    reachable s -> reachable (update currentTime now s)
| reachable_forceRestart s now :
    reachable s -> reachable (forceRestart now s).

(** [update] called at each of the given times in turn. *)
Definition play (times : list Z) (s : Game) : Game :=
  fold_left (fun s t => update t t s) times s.

End Game.

Arguments reachable {P}.

(* ================================================================== *)
(** ** Invariants and other vocabulary of the properties *)
(* ================================================================== *)

(** The trail matrix is always 7 rows of 52 cells. *)
Definition trailShape (tg : list (list Z)) : Prop :=
  length tg = 7%nat /\ Forall (fun row => length row = 52%nat) tg.

(** Every cell of the arena, row by row. *)
Definition allCells : list Point :=
  flat_map (fun r => map (fun c => mkPoint c r) (seqZ 0 52)) (seqZ 0 7).

(** "Boxed in": each of the three headings that is not the reverse of the
    current one leads into a blocked cell. *)
Definition boxedIn (tg : list (list Z)) (cycle : LightCycle) : Prop :=
  forall d, d <> getOppositeDirection (direction cycle) ->
            checkCollision tg (getNextPositionInDirection (position cycle) d) = true.

(** Scores never increase along a sorted array. *)
Definition descending (l : list Evaluation) : Prop :=
  StronglySorted (fun a b => snd b <= snd a) l.

(** Occupied cells stay occupied. *)
Definition grows (tg tg' : list (list Z)) : Prop :=
  forall p v, cellAt tg p = Some v -> v <> 0 ->
              exists v', cellAt tg' p = Some v' /\ v' <> 0.

(** All cells hold 0 or a (positive) cycle identifier. *)
Definition nonNegative (tg : list (list Z)) : Prop :=
  Forall (Forall (fun v => 0 <= v)) tg.

(** What every reachable state satisfies. *)
Record wellFormed {P} (s : TronGame P) : Prop := {
  wf_shape : trailShape (trailGrid s);
  wf_cells : nonNegative (trailGrid s);
  wf_ids : forall c, In c (cycles s) -> 0 < id c;
  wf_positions : forall c, In c (cycles s) ->
                           isValidPosition (position c) = true;
  wf_delay : restartDelay s = 1000;
}.

(** The trail right after a reset: empty but for the four spawn cells. *)
Definition spawnTrail : list (list Z) :=
  setCell (setCell (setCell (setCell emptyTrail
    (mkPoint 8 1) 1) (mkPoint 43 1) 2) (mkPoint 8 5) 3) (mkPoint 43 5) 4.

(** The identifier of the cycle that spawns on a cell, 0 if none does. *)
Definition spawnId (p : Point) : Z :=
  if Point_eqb p (mkPoint 8 1) then 1
  else if Point_eqb p (mkPoint 43 1) then 2
  else if Point_eqb p (mkPoint 8 5) then 3
  else if Point_eqb p (mkPoint 43 5) then 4
  else 0.

(** The number of cells of the trail that are not 0. *)
Definition occupiedCells (tg : list (list Z)) : Z :=
  Z.of_nat (length (List.filter (fun cell => negb (cell =? 0)) (concat tg))).

(* ================================================================== *)
(** ** The eight features, as the specification words them *)
(* ================================================================== *)

Definition unblocked (tg : list (list Z)) (p : Point) : bool :=
  negb (checkCollision tg p).

(** The [k] cells met from [p] on, going in heading [d]. *)
Fixpoint cellsAhead (k : nat) (p : Point) (d : Direction) : list Point :=
  match k with
  | O => []
  | S k' => p :: cellsAhead k' (getNextPositionInDirection p d) d
  end.

(** The number of elements at the front of a list that pass a test. *)
Fixpoint leadingRun {A} (f : A -> bool) (l : list A) : nat :=
  match l with
  | [] => O
  | a :: l' => if f a then S (leadingRun f l') else O
  end.

Definition chebyshev (p q : Point) : Z :=
  Z.max (Z.abs (x p - x q)) (Z.abs (y p - y q)).

(** The square of Chebyshev radius [r] around [n], row by row. *)
Definition square (n : Point) (r : Z) : list Point :=
  flat_map (fun dy => map (fun dx => mkPoint (x n + dx) (y n + dy))
                        (seqZ (- r) (2 * r + 1)))
           (seqZ (- r) (2 * r + 1)).

(** Consecutive unblocked cells ahead, at most 10. *)
Definition specSafetyDistance tg (n : Point) (d : Direction) : Z :=
  Z.of_nat (leadingRun (unblocked tg) (cellsAhead 10 n d)).

(** Unblocked cells around [n] within Chebyshev radius 2. *)
Definition specOpenSpace tg (n : Point) : Z :=
  Z.of_nat (length (List.filter
    (fun q => negb (Point_eqb q n) && unblocked tg q) (square n 2))).

(** Least distance from [n] to the four borders. *)
Definition specEdgeDistance (n : Point) : Z :=
  Z.min (x n) (Z.min (51 - x n) (Z.min (y n) (6 - y n))).

(** [max(0, 10 - k)], for [k] remembered positions near [n]. *)
Definition specPathDiversity (memory : list Point) (n : Point) : Z :=
  Z.max 0 (10 - Z.of_nat (length (List.filter
    (fun p => chebyshev p n <=? 2) memory))).

Definition specContinuity (current d : Direction) : Z :=
  if decide (d = current) then 1 else 0.

(** 1 where the activity recorded at [n] is at most 1 (0 off the grid). *)
Definition specExploration (g : list (list Z)) (n : Point) : Z :=
  match cellAt g n with
  | Some v => if v <=? 1 then 1 else 0
  | None => 0
  end.

Definition specAvoidance tg (n : Point) : Z :=
  if unblocked tg n then 0 else 1.

(** Headings other than the reverse of [d] that are unblocked from [n]. *)
Definition specFutureOptions tg (n : Point) (d : Direction) : Z :=
  Z.of_nat (length (List.filter
    (fun d' => negb (Direction_eqb d' (getOppositeDirection d))
               && unblocked tg (getNextPositionInDirection n d'))
    allDirections)).

(* ================================================================== *)
(** ** Hosts: double arithmetic, and when two hosts make the same game *)
(* ================================================================== *)

(** A JavaScript number: an IEEE 754 binary64 value (53 bits of
    precision, exponents below 1024), with a single NaN.  Sums, products,
    quotients and comparisons are those of the standard library's
    specification of binary64 arithmetic, rounding to nearest, ties to
    even. *)
Definition Double : Type := spec_float.

(** The double nearest to an integer (the integer itself below 2^53). *)
Definition doubleOfZ (z : Z) : Double := binary_normalize 53 1024 z 0 false.

(** [0.5], the temperature of the softmax. *)
Definition half : Double := binary_normalize 53 1024 1 (-1) false.

(** [Math.floor] of a finite double [+-m * 2^e], as an integer.  On NaN
    and the infinities [Math.floor] has no integer value; [0] stands for
    it there ([getRandomDirection] is its only caller, on a number in
    [0, 4)). *)
Definition floorOfDouble (z : Double) : Z :=
  match z with
  | S754_finite s m e => Z.shiftl (cond_Zopp s (Zpos m)) e
  | _ => 0
  end.

(** A double that is not negative: NaN, or a zero, a finite number or an
    infinity with the sign bit clear. *)
Definition nonneg (z : Double) : Prop :=
  match z with
  | S754_nan => True
  | S754_zero s | S754_infinity s | S754_finite s _ _ => s = false
  end.

(** [Math.exp] is left to the engine by the language: apart from its
    special cases it is "implementation-approximated".  What the
    properties below use of it holds of every engine: the result is never
    negative, and from 710 on it is [Infinity] (e^710 is above the largest
    double, 1.797...e308; e^709 is not). *)
Record hostExp (mexp : Double -> Double) : Prop := {
  exp_nonneg : forall x, nonneg (mexp x);
  exp_overflow : forall x,
    SFleb (doubleOfZ 710) x = true -> mexp x = S754_infinity false;
}.

(** The host whose numbers are doubles: [mexp] is the engine's
    [Math.exp], [draws] are the values returned by [Math.random()], and
    the particle helpers are as given. *)
Definition Doubles {P} (mexp : Double -> Double) (draws : nat -> Double)
    (boom : Z -> Z -> list Double -> list P) (age : list P -> list P)
  : World P :=
  {| Num := Double; ofZ := doubleOfZ; temperature := half;
     nadd := SFadd 53 1024; nmul := SFmul 53 1024; ndiv := SFdiv 53 1024;
     nexp := mexp; nle := SFleb; nfloor := floorOfDouble;
     random := draws; createExplosion := boom; updateParticles := age |}.

(** [ln 2 * 2^128], rounded down. *)
Definition ln2_128 : Z := 235865763225513294137944142764154484399.

(** [2^128 * (1 + r/i * (1 + r/(i+1) * (...)))], for [r] scaled by
    [2^128]. *)
Fixpoint expSeries (terms : nat) (i : Z) (r : Z) : Z :=
  match terms with
  | O => 2 ^ 128
  | S terms' => 2 ^ 128 + Z.shiftr (r * expSeries terms' (i + 1) r) 128 / i
  end.

(** One [Math.exp], to run examples on: the special cases of the
    language (NaN, the infinities, the zeros), [Infinity] from 710 on and
    [0] up to -746 (where e^x is above the largest double, or below half
    the smallest), and otherwise e^x evaluated in fixed point with 128
    fractional bits and rounded to the nearest double: [x = k * ln 2 + r]
    with [|r| <= ln 2 / 2], [e^r] by 32 terms of its series, and the
    result [e^r * 2^k]. *)
Definition Math_exp_def (x : Double) : Double :=
  match x with
  | S754_nan => S754_nan
  | S754_infinity s => if s then S754_zero false else S754_infinity false
  | S754_zero _ => doubleOfZ 1
  | S754_finite s m e =>
      if SFleb (doubleOfZ 710) x then S754_infinity false
      else if SFleb x (doubleOfZ (-746)) then S754_zero false
      else
        let scaled := Z.shiftl (cond_Zopp s (Zpos m)) (e + 128) in
        let k := (2 * scaled + ln2_128) / (2 * ln2_128) in
        let r := scaled - k * ln2_128 in
        match expSeries 32 1 r with
        | Zpos p => binary_round 53 1024 false p (k - 128)
        | _ => S754_zero false
        end
  end.

(** [Math_exp] is [Math_exp_def], sealed: a game never unfolds it by
    itself; a value is computed after rewriting with [Math_exp_unseal]. *)
Definition Math_exp_aux : seal Math_exp_def.
Proof. by eexists. Qed.

Definition Math_exp : Double -> Double := unseal Math_exp_aux.

Definition Math_exp_unseal : Math_exp = Math_exp_def := seal_eq Math_exp_aux.

(** The game only looks at its host through these four functions. *)
Record agree {P} (W1 W2 : World P) : Prop := {
  agree_direction : forall n,
    getRandomDirection W1 (random W1 n) = getRandomDirection W2 (random W2 n);
  agree_select : forall evaluations n fallback,
    softmaxSelect W1 evaluations (random W1 n) fallback
    = softmaxSelect W2 evaluations (random W2 n) fallback;
  agree_explosion : forall p n, explosion W1 p n = explosion W2 p n;
  agree_particles : forall ps, updateParticles W1 ps = updateParticles W2 ps;
}.

Arguments agree_direction {P W1 W2}.
Arguments agree_select {P W1 W2}.
Arguments agree_explosion {P W1 W2}.
Arguments agree_particles {P W1 W2}.

(* ================================================================== *)
(** ** Two concrete games *)
(* ================================================================== *)

(** A stand-in for the particles of the renderer: the cell an explosion
    started from and the number of frames the particle has left. *)
Definition Spark : Type := Point * nat.

Definition sparkBurst {N} (cx cy : Z) (_ : list N) : list Spark :=
  replicate 12 (mkPoint cx cy, 50%nat).

Definition sparkAge (ps : list Spark) : list Spark :=
  List.filter (fun p => (0 <? snd p)%nat)
    (map (fun p => (fst p, Nat.pred (snd p))) ps).

(** Double arithmetic, with a [Math.random()] that always returns 0 (a
    value it may return): every initial heading is then [UP] and every
    decision takes the first candidate of the sorted array, whatever the
    engine's [Math.exp] is. *)
Definition ZeroDraws : World Spark :=
  Doubles Math_exp (fun _ => S754_zero false) sparkBurst sparkAge.

(** The same game without arithmetic: the first candidate of the sorted
    array is always taken.  It computes, and agrees with [ZeroDraws]. *)
Definition Greedy : World Spark :=
  {| Num := unit; ofZ := fun _ => tt; temperature := tt;
     nadd := fun _ _ => tt; nmul := fun _ _ => tt; ndiv := fun _ _ => tt;
     nexp := fun _ => tt; nle := fun _ _ => true; nfloor := fun _ => 0;
     random := fun _ => tt;
     createExplosion := sparkBurst; updateParticles := sparkAge |}.

(** An activity grid with the third row at level 4 and the rest at 0, and
    one with no activity at all. *)
Definition stripeGrid : list (list Z) :=
  <[2%nat := replicate 52 4]> (replicate 7 (replicate 52 0)).

Definition zeroGrid : list (list Z) := replicate 7 (replicate 52 0).

(** [update] called every 200 ms, [n] times. *)
Definition everyTick (n : nat) : list Z :=
  map (fun k => 200 * Z.of_nat k) (seq 1 n).

Definition stripeRun (W : World Spark) (n : nat) : TronGame Spark :=
  play W (everyTick n) (newGame W stripeGrid 0).

Definition zeroRun (W : World Spark) (n : nat) : TronGame Spark :=
  play W (everyTick n) (newGame W zeroGrid 0).

(* ================================================================== *)
(** ** Readings of the specification that the code does not satisfy *)
(* ================================================================== *)

(** Write-once trail (C1): a non-zero cell keeps its value across every
    call of [update] made while [PLAYING] (such a call never resets the
    round). *)
Definition writeOnce {P} (W : World P) : Prop :=
  forall (s : TronGame P) t now p v,
    reachable W s -> state s = PLAYING ->
    cellAt (trailGrid s) p = Some v -> v <> 0 ->
    cellAt (trailGrid (update W t now s)) p = Some v.

(** Immediate restart and blank trail after the reset (C2). *)
Definition restartsImmediately {P} (W : World P) : Prop :=
  forall (s : TronGame P) t now,
    reachable W s -> state s = PLAYING ->
    (2 <= length (aliveCycles s))%nat ->
    (length (aliveCycles (update W t now s)) <= 1)%nat ->
    state (update W t now s) = RESTARTING.

Definition resetZeroesTrail {P} (W : World P) : Prop :=
  forall (s : TronGame P) t now p,
    reachable W s -> state s = RESTARTING -> 1000 < t - restartTime s ->
    isValidPosition p = true ->
    cellAt (trailGrid (update W t now s)) p = Some 0.

(** A single alive cycle that is boxed in is dead after the next
    permitted tick (C3). *)
Definition boxedSurvivorDies {P} (W : World P) : Prop :=
  forall (s : TronGame P) t now i c,
    reachable W s -> state s = PLAYING -> speed s <= t - lastMoveTime s ->
    cycles s !! i = Some c -> aliveCycles s = [c] ->
    boxedIn (trailGrid s) c ->
    exists c', cycles (update W t now s) !! i = Some c' /\ alive c' = false.

(** The alive cycles are on pairwise distinct cells (C5). *)
Definition distinctHeads {P} (W : World P) : Prop :=
  forall (s : TronGame P),
    reachable W s -> List.NoDup (map position (aliveCycles s)).

(** The score counts the cycles alive after the moves (C6). *)
Definition scoreCountsSurvivors {P} (W : World P) : Prop :=
  forall (s : TronGame P) t now,
    reachable W s -> state s = PLAYING -> speed s <= t - lastMoveTime s ->
    (2 <= length (aliveCycles s))%nat ->
    score (update W t now s)
    = (t - gameStartTime s) / 1000 * 10
      + Z.of_nat (length (aliveCycles (update W t now s))) * 5
      + occupiedCells (trailGrid (update W t now s)).

(** The identifier, cell and alive flag of each cycle. *)
Definition heads {P} (s : TronGame P) : list (Z * (Z * Z) * bool) :=
  map (fun c => (id c, (x (position c), y (position c)), alive c)) (cycles s).

(** A cycle on its spawn cell, heading [UP]. *)
Definition spawnedCycle : LightCycle :=
  {| id := 1; position := mkPoint 8 1; direction := UP;
     color := "#00ffff"; glowColor := "#00ffff"; alive := true;
     pathfindingMemory := []; lastDirectionChange := 0;
     movesSinceDirectionChange := 0 |}.

(* ================================================================== *)
(** ** What a round keeps true *)
(* ================================================================== *)

(** The evaluations of a given score, in the order of the array. *)
Definition scored (k : Z) (l : list Evaluation) : list Evaluation :=
  List.filter (fun e => snd e =? k) l.

(** Each cell holds 0 or one of the four identifiers. *)
Definition ownedCells (tg : list (list Z)) : Prop :=
  Forall (Forall (fun v => 0 <= v <= 4)) tg.

(** A cell of the trail that is not 0. *)
Definition occupied (tg : list (list Z)) (p : Point) : Prop :=
  exists v, cellAt tg p = Some v /\ v <> 0.

(** Further facts true of every state of a round: the roster is the four
    cycles created at the reset, memories are bounded and lie on the trail,
    an alive cycle is one step ahead of the cell it remembered last, and
    the tick interval never goes below 80 ms. *)
Record steady {P} (s : TronGame P) : Prop := {
  st_ids : map id (cycles s) = [1; 2; 3; 4];
  st_colors : map (fun c => (color c, glowColor c)) (cycles s) = colors;
  st_cells : ownedCells (trailGrid s);
  st_memory : forall c, In c (cycles s) ->
                        (length (pathfindingMemory c) <= 20)%nat;
  st_visited : forall c p, In c (cycles s) -> In p (pathfindingMemory c) ->
                           occupied (trailGrid s) p;
  st_head : forall c, In c (cycles s) -> alive c = true ->
                      pathfindingMemory c <> [] ->
                      position c
                      = getNextPositionInDirection
                          (List.last (pathfindingMemory c) (position c))
                          (direction c);
  st_speed : 80 <= speed s;
}.

(* ================================================================== *)
(** ** Drawing: the calls made on the canvas *)
(* ================================================================== *)

Record RenderConfig := mkConfig { cellSize : Z; cellGap : Z; padding : Z }.

(** The calls that [drawCycle] and [drawTrails] make on the 2D context. *)
Inductive CanvasOp :=
| Save
| Restore
| ShadowColor (c : string)
| ShadowBlur (b : Z)
| FillStyle (c : string)
| FillRect (left top width height : Z).

Definition contributionColors : list string :=
  [ "#161b22"; "#0e4429"; "#006d32"; "#26a641"; "#39d353" ]%string.

(** [colors[Math.min(level, 4)] || colors[0]], for an integer [level]: a
    negative index is [undefined], which [||] replaces by [colors[0]]. *)
Definition getContributionColor (level : Z) : string :=
  let i := Z.min level 4 in
  if i <? 0 then nth 0 contributionColors ""%string
  else nth (Z.to_nat i) contributionColors ""%string.

(** [{ width, height }] *)
Definition calculateCanvasDimensions (config : RenderConfig) : Z * Z :=
  (padding config * 2 + 52 * cellSize config + 51 * cellGap config,
   padding config * 2 + 7 * cellSize config + 6 * cellGap config).

(** [padding + p.x * (cellSize + cellGap)], and the same for [p.y]. *)
Definition cellLeft (config : RenderConfig) (p : Point) : Z :=
  padding config + x p * (cellSize config + cellGap config).

Definition cellTop (config : RenderConfig) (p : Point) : Z :=
  padding config + y p * (cellSize config + cellGap config).


(** The body of the two loops of [drawTrails] for the cell [p].  [None]:
    [this.trailGrid[y]] is [undefined] and reading [[x]] throws. *)
Definition drawTrailCell (config : RenderConfig) (cs : list LightCycle)
    (tg : list (list Z)) (p : Point) : option (list CanvasOp) :=
  match tg !! Z.to_nat (y p) with
  | None => None
  | Some row =>
      match row !! Z.to_nat (x p) with
      | None => Some []
      | Some cycleId =>
          if 0 <? cycleId then
            match List.find (fun c => id c =? cycleId) cs with
            | Some cycle =>
                Some [ Save;
                       ShadowColor (glowColor cycle); ShadowBlur 6;
                       FillStyle (color cycle);
                       FillRect (cellLeft config p) (cellTop config p)
                         (cellSize config) (cellSize config);
                       Restore ]
            | None => Some []
            end
          else Some []
      end
  end.

(** Runs the steps in order; [None] as soon as one throws. *)
Fixpoint inOrder {A} (steps : list (option (list A))) : option (list A) :=
  match steps with
  | [] => Some []
  | None :: _ => None
  | Some ops :: steps' =>
      match inOrder steps' with
      | Some rest => Some (ops ++ rest)
      | None => None
      end
  end.

(** [for y in 0..6, for x in 0..51]: the cells in the order of [allCells]. *)
Definition drawTrails {P} (s : TronGame P) (config : RenderConfig)
  : option (list CanvasOp) :=
  inOrder (map (drawTrailCell config (cycles s) (trailGrid s)) allCells).

(** The rectangles a list of calls fills, each with the fill style in
    force when it is filled; [save] and [restore] keep a stack of fill
    styles, as the canvas does. *)
Fixpoint fills (stack : list string) (style : string) (ops : list CanvasOp)
  : list (string * (Z * Z * Z * Z)) :=
  match ops with
  | [] => []
  | Save :: ops' => fills (style :: stack) style ops'
  | Restore :: ops' =>
      match stack with
      | saved :: stack' => fills stack' saved ops'
      | [] => fills [] style ops'
      end
  | FillStyle c :: ops' => fills stack c ops'
  | FillRect l t w h :: ops' => (style, (l, t, w, h)) :: fills stack style ops'
  | _ :: ops' => fills stack style ops'
  end.

(** The colour of the cycle with identifier [v]. *)
Definition cycleColor (v : Z) : string :=
  fst (nth (Z.to_nat (v - 1)) colors (""%string, ""%string)).

(** The value of a cell of the trail, 0 outside the matrix. *)
Definition trailValue (tg : list (list Z)) (p : Point) : Z :=
  match cellAt tg p with
  | Some v => v
  | None => 0
  end.

(** The rectangle of the cell [p]. *)
Definition cellRect (config : RenderConfig) (p : Point) : Z * Z * Z * Z :=
  (cellLeft config p, cellTop config p, cellSize config, cellSize config).

(** Where [ctx.fillRect(l, t, w, h)] paints: from [l] to [l + w] and from
    [t] to [t + h], in either order (a negative width or height paints to
    the left of [l] or above [t]).  [insideCanvas]: the painted area lies
    on the canvas that [calculateCanvasDimensions] sizes.  [insidePadding]:
    it keeps the distance [padding] from each of the four edges. *)
Definition insideCanvas (config : RenderConfig) (r : Z * Z * Z * Z) : Prop :=
  let '(l, t, w, h) := r in
  0 <= Z.min l (l + w)
  /\ Z.max l (l + w) <= fst (calculateCanvasDimensions config)
  /\ 0 <= Z.min t (t + h)
  /\ Z.max t (t + h) <= snd (calculateCanvasDimensions config).

Definition insidePadding (config : RenderConfig) (r : Z * Z * Z * Z) : Prop :=
  let '(l, t, w, h) := r in
  padding config <= Z.min l (l + w)
  /\ Z.max l (l + w)
     <= fst (calculateCanvasDimensions config) - padding config
  /\ padding config <= Z.min t (t + h)
  /\ Z.max t (t + h)
     <= snd (calculateCanvasDimensions config) - padding config.

(* ================================================================== *)
(** ** Directions, positions and cells *)
(* ================================================================== *)

Lemma Direction_eqb_eq a b : Direction_eqb a b = true <-> a = b.
Proof. destruct a, b; simpl; split; congruence. Qed.

Lemma Direction_eqb_refl a : Direction_eqb a a = true.
Proof. by destruct a. Qed.

Lemma Direction_eqb_neq a b : Direction_eqb a b = false <-> a <> b.
Proof. destruct a, b; simpl; split; congruence. Qed.

Lemma opposite_differs d : getOppositeDirection d <> d.
Proof. by destruct d. Qed.

Lemma isValidPosition_true pos :
  isValidPosition pos = true <-> 0 <= x pos < 52 /\ 0 <= y pos < 7.
Proof. unfold isValidPosition. lia. Qed.

Lemma Point_eta p : mkPoint (x p) (y p) = p.
Proof. by destruct p. Qed.

Lemma Point_ext p q : x p = x q -> y p = y q -> p = q.
Proof. destruct p, q; simpl; congruence. Qed.

Lemma checkCollision_outside tg pos :
  isValidPosition pos = false -> checkCollision tg pos = true.
Proof. unfold checkCollision. by intros ->. Qed.

Lemma checkCollision_false tg pos :
  checkCollision tg pos = false <->
  isValidPosition pos = true /\ cellAt tg pos = Some 0.
Proof.
  unfold checkCollision.
  destruct (isValidPosition pos); simpl; [|intuition congruence].
  destruct (cellAt tg pos) as [v|]; [|intuition congruence].
  destruct (Z.eqb_spec v 0); simpl; intuition congruence.
Qed.

Lemma emptyTrail_shape : trailShape emptyTrail.
Proof. split; [reflexivity|]. unfold emptyTrail. repeat constructor. Qed.

Lemma setCell_shape tg pos v : trailShape tg -> trailShape (setCell tg pos v).
Proof.
  intros [Hl Hr]. split; unfold setCell.
  - by rewrite length_alter.
  - apply Forall_lookup_2. intros i row Hi.
    destruct (decide (Z.to_nat (y pos) = i)) as [<-|Hne].
    + rewrite list_lookup_alter_eq in Hi.
      destruct (tg !! Z.to_nat (y pos)) as [row0|] eqn:E; simplify_eq/=.
      rewrite length_insert. eapply (Forall_lookup_1 _ _ _ _ Hr E).
    + rewrite list_lookup_alter_ne in Hi by done.
      eapply (Forall_lookup_1 _ _ _ _ Hr Hi).
Qed.

Lemma cellAt_shape tg pos :
  trailShape tg -> isValidPosition pos = true -> exists v, cellAt tg pos = Some v.
Proof.
  intros [Hl Hr] Hv. apply isValidPosition_true in Hv.
  unfold cellAt.
  destruct (y pos <? 0) eqn:E1; [lia|]. destruct (x pos <? 0) eqn:E2; [lia|].
  simpl.
  destruct (lookup_lt_is_Some_2 tg (Z.to_nat (y pos))) as [row Hrow]; [lia|].
  rewrite Hrow.
  pose proof (Forall_lookup_1 _ _ _ _ Hr Hrow) as Hlen. simpl in Hlen.
  destruct (lookup_lt_is_Some_2 row (Z.to_nat (x pos))) as [v Hcell]; [lia|].
  eauto.
Qed.

Lemma cellAt_setCell_eq tg pos v :
  trailShape tg -> isValidPosition pos = true ->
  cellAt (setCell tg pos v) pos = Some v.
Proof.
  intros [Hl Hr] Hv. apply isValidPosition_true in Hv.
  unfold cellAt, setCell.
  destruct (y pos <? 0) eqn:E1; [lia|]. destruct (x pos <? 0) eqn:E2; [lia|].
  simpl. rewrite list_lookup_alter_eq.
  destruct (lookup_lt_is_Some_2 tg (Z.to_nat (y pos))) as [row Hrow]; [lia|].
  rewrite Hrow. simpl.
  pose proof (Forall_lookup_1 _ _ _ _ Hr Hrow) as Hlen. simpl in Hlen.
  apply list_lookup_insert_eq. lia.
Qed.

Lemma cellAt_setCell_ne tg pos q v :
  isValidPosition pos = true -> q <> pos ->
  cellAt (setCell tg pos v) q = cellAt tg q.
Proof.
  intros Hv Hne. apply isValidPosition_true in Hv.
  unfold cellAt, setCell.
  destruct (y q <? 0) eqn:E1; [done|]. destruct (x q <? 0) eqn:E2; [done|].
  simpl.
  destruct (decide (Z.to_nat (y pos) = Z.to_nat (y q))) as [Hy|Hy].
  - rewrite Hy, list_lookup_alter_eq.
    destruct (tg !! Z.to_nat (y q)) as [row|]; [|done]. simpl.
    apply list_lookup_insert_ne. intros Hx. apply Hne.
    apply Point_ext; lia.
  - by rewrite list_lookup_alter_ne.
Qed.

Lemma allCells_complete pos : isValidPosition pos = true -> In pos allCells.
Proof.
  intros Hv. apply isValidPosition_true in Hv. unfold allCells.
  apply in_flat_map. exists (y pos). split.
  - apply list_elem_of_In, elem_of_seqZ. lia.
  - apply in_map_iff. exists (x pos). split; [apply Point_eta|].
    apply list_elem_of_In, elem_of_seqZ. lia.
Qed.

(* ================================================================== *)
(** ** The decision engine *)
(* ================================================================== *)

Lemma getSafeDirections_In tg cycle d :
  In d (getSafeDirections tg cycle) <->
  d <> getOppositeDirection (direction cycle) /\
  checkCollision tg (getNextPositionInDirection (position cycle) d) = false.
Proof.
  unfold getSafeDirections. rewrite filter_In.
  destruct (Direction_eqb (getOppositeDirection (direction cycle)) d) eqn:E.
  - apply Direction_eqb_eq in E. intuition congruence.
  - apply Direction_eqb_neq in E. rewrite negb_true_iff.
    split; [intros [_ H]; split; [congruence|done]|].
    intros [_ H]. split; [|done]. destruct d; simpl; tauto.
Qed.

Lemma boxedIn_no_candidate tg cycle :
  boxedIn tg cycle <-> getSafeDirections tg cycle = [].
Proof.
  split.
  - intros Hb. destruct (getSafeDirections tg cycle) as [|d l] eqn:E; [done|].
    assert (In d (getSafeDirections tg cycle)) as Hd by (rewrite E; by left).
    apply getSafeDirections_In in Hd as [Hd1 Hd2].
    rewrite (Hb d Hd1) in Hd2. discriminate.
  - intros He d Hd.
    destruct (checkCollision tg (getNextPositionInDirection (position cycle) d))
      eqn:E; [done|].
    assert (In d (getSafeDirections tg cycle)) as Hin
      by (apply getSafeDirections_In; done).
    rewrite He in Hin. destruct Hin.
Qed.

Lemma insertEvaluation_perm e l : Permutation (insertEvaluation e l) (e :: l).
Proof.
  induction l as [|e' l IH]; simpl; [done|].
  destruct (snd e' <=? snd e); [done|].
  rewrite IH. apply perm_swap.
Qed.

Lemma sortEvaluations_perm l : Permutation (sortEvaluations l) l.
Proof.
  induction l as [|e l IH]; simpl; [done|].
  by rewrite insertEvaluation_perm, IH.
Qed.

Lemma insertEvaluation_descending e l :
  descending l -> descending (insertEvaluation e l).
Proof.
  unfold descending. induction 1 as [|e' l Hs IH Hall]; simpl.
  - repeat constructor.
  - destruct (Z.leb_spec (snd e') (snd e)) as [Hle|Hlt].
    + constructor; [by constructor|].
      constructor; [done|].
      eapply Forall_impl; [exact Hall|]. simpl. intros; lia.
    + constructor; [done|].
      rewrite insertEvaluation_perm. constructor; [lia|done].
Qed.

Lemma sortEvaluations_descending l : descending (sortEvaluations l).
Proof.
  induction l as [|e l IH]; simpl; [constructor|].
  by apply insertEvaluation_descending.
Qed.

Lemma sortEvaluations_nil l : sortEvaluations l = [] -> l = [].
Proof.
  intros H. pose proof (sortEvaluations_perm l) as Hp. rewrite H in Hp.
  by apply Permutation_nil in Hp.
Qed.

Section Selection.
Context {P : Type} (W : World P).

Lemma selectLoop_In evaluations probs rnd cumulative d :
  selectLoop W evaluations probs rnd cumulative = Some d ->
  In d (map fst evaluations).
Proof.
  revert probs cumulative.
  induction evaluations as [|e l IH]; intros [|p probs] cumulative; simpl;
    try discriminate.
  destruct (nle W rnd (nadd W cumulative p)).
  - intros [= <-]. by left.
  - intros H. right. eauto.
Qed.

Lemma softmaxSelect_In evaluations rnd fallback :
  evaluations <> [] ->
  In (softmaxSelect W evaluations rnd fallback) (map fst evaluations).
Proof.
  intros Hne. unfold softmaxSelect.
  destruct (selectLoop W evaluations (probabilities W evaluations) rnd
              (ofZ W 0)) as [d|] eqn:E.
  - eapply selectLoop_In, E.
  - destruct evaluations; [done|]. by left.
Qed.

Lemma makeAIDecision_boxed g tg n cycle :
  getSafeDirections tg cycle = [] ->
  makeAIDecision W g tg n cycle = (direction cycle, n).
Proof. unfold makeAIDecision. by intros ->. Qed.

Lemma makeAIDecision_candidate g tg n cycle :
  getSafeDirections tg cycle <> [] ->
  In (fst (makeAIDecision W g tg n cycle)) (getSafeDirections tg cycle)
  /\ snd (makeAIDecision W g tg n cycle) = S n.
Proof.
  intros Hne. unfold makeAIDecision.
  destruct (getSafeDirections tg cycle) as [|d0 l] eqn:E; [done|].
  cbn [fst snd]. split; [|done].
  set (evs := map (fun dir => (dir, neuralEvaluateDirection g tg cycle dir))
                (d0 :: l)).
  assert (sortEvaluations evs <> []) as Hs
    by (intros H; by apply sortEvaluations_nil in H).
  pose proof (softmaxSelect_In (sortEvaluations evs) (random W n)
                (direction cycle) Hs) as Hin.
  apply in_map_iff in Hin as [e [He Hin]].
  rewrite <- He.
  eapply Permutation_in in Hin; [|apply sortEvaluations_perm].
  apply in_map_iff in Hin as [d [<- Hd]]. done.
Qed.

(** The draw counter never goes back. *)
Lemma makeAIDecision_rng g tg n cycle :
  (n <= snd (makeAIDecision W g tg n cycle))%nat.
Proof.
  destruct (getSafeDirections tg cycle) eqn:E.
  - rewrite makeAIDecision_boxed by done. simpl. lia.
  - destruct (makeAIDecision_candidate g tg n cycle) as [_ ->]; [congruence|lia].
Qed.

End Selection.

(** C4. The heading returned by [makeAIDecision] is never the reverse of
    the cycle's current heading.  The candidates are exactly the headings
    other than the reverse whose adjacent cell is not blocked; when there
    is a candidate the returned heading is one of them, and when there is
    none the current heading is returned unchanged. *)
Theorem makeAIDecision_no_reverse {P} (W : World P) g tg n cycle :
  let chosen := fst (makeAIDecision W g tg n cycle) in
  chosen <> getOppositeDirection (direction cycle)
  /\ (forall d, In d (getSafeDirections tg cycle) <->
                d <> getOppositeDirection (direction cycle)
                /\ checkCollision tg
                     (getNextPositionInDirection (position cycle) d) = false)
  /\ (getSafeDirections tg cycle <> [] ->
      In chosen (getSafeDirections tg cycle))
  /\ (getSafeDirections tg cycle = [] -> chosen = direction cycle).
Proof.
  intros chosen. subst chosen.
  split; [|split; [|split]].
  - destruct (getSafeDirections tg cycle) eqn:E.
    + rewrite makeAIDecision_boxed by done. simpl.
      intros H. symmetry in H. by apply opposite_differs in H.
    + destruct (makeAIDecision_candidate W g tg n cycle) as [Hin _]; [congruence|].
      by apply getSafeDirections_In in Hin as [Hin _].
  - intros d. apply getSafeDirections_In.
  - intros Hne. by apply makeAIDecision_candidate.
  - intros He. by rewrite makeAIDecision_boxed.
Qed.

(* ================================================================== *)
(** ** One cycle's move *)
(* ================================================================== *)

Lemma grows_refl tg : grows tg tg.
Proof. intros p v H ?. eauto. Qed.

Lemma grows_trans a b c : grows a b -> grows b c -> grows a c.
Proof.
  intros Hab Hbc p v H Hv.
  destruct (Hab p v H Hv) as [v' [H' Hv']]. eauto.
Qed.

Lemma grows_setCell tg pos v :
  trailShape tg -> isValidPosition pos = true -> v <> 0 ->
  grows tg (setCell tg pos v).
Proof.
  intros Hs Hp Hv q w Hq Hw.
  destruct (decide (q = pos)) as [->|Hne].
  - exists v. split; [by apply cellAt_setCell_eq|done].
  - exists w. by rewrite cellAt_setCell_ne.
Qed.

Lemma grows_blocked tg tg' p :
  trailShape tg -> grows tg tg' ->
  checkCollision tg p = true -> checkCollision tg' p = true.
Proof.
  intros Hs Hg Hb.
  destruct (checkCollision tg' p) eqn:E; [done|].
  apply checkCollision_false in E as [Hv Hc].
  destruct (cellAt_shape tg p Hs Hv) as [v Hcell].
  unfold checkCollision in Hb. rewrite Hv, Hcell in Hb. simpl in Hb.
  destruct (Z.eqb_spec v 0) as [|Hne]; [discriminate|].
  destruct (Hg p v Hcell Hne) as [v' [Hc' Hv']]. congruence.
Qed.

Lemma grows_boxedIn tg tg' cycle :
  trailShape tg -> grows tg tg' -> boxedIn tg cycle -> boxedIn tg' cycle.
Proof. intros Hs Hg Hb d Hd. eapply grows_blocked; eauto. Qed.

Lemma setCell_nonNegative tg pos v :
  0 <= v -> nonNegative tg -> nonNegative (setCell tg pos v).
Proof.
  intros Hv Hn. unfold nonNegative, setCell.
  apply Forall_alter; [done|]. intros row Hrow Hall.
  by apply Forall_insert.
Qed.

Section Move.
Context {P : Type} (W : World P).

Local Abbreviation Game := (TronGame P).

Lemma moveCycle_absent (s : Game) i :
  cycles s !! i = None -> moveCycle W s i = s.
Proof. unfold moveCycle. by intros ->. Qed.

(** What the loop body does to the cycle at index [i]. *)
Lemma moveCycle_step (s : Game) i c :
  cycles s !! i = Some c ->
  let chosen := fst (makeAIDecision W (grid s) (trailGrid s) (rng s) c) in
  let n := snd (makeAIDecision W (grid s) (trailGrid s) (rng s) c) in
  let nextPos := getNextPositionInDirection (position c) chosen in
  exists c' tg' ps' n',
    moveCycle W s i = withCycle s i c' tg' ps' n'
    /\ id c' = id c /\ direction c' = chosen
    /\ ((checkCollision (trailGrid s) nextPos = true
         /\ alive c' = false /\ position c' = position c
         /\ pathfindingMemory c' = pathfindingMemory c
         /\ tg' = trailGrid s
         /\ ps' = particles s ++ explosion W (position c) n
         /\ n' = (n + 36)%nat)
        \/ (checkCollision (trailGrid s) nextPos = false
            /\ alive c' = alive c /\ position c' = nextPos
            /\ pathfindingMemory c'
               = remember (pathfindingMemory c) (position c)
            /\ tg' = (if isValidPosition (position c)
                      then setCell (trailGrid s) (position c) (id c)
                      else trailGrid s)
            /\ ps' = particles s /\ n' = n)).
Proof.
  intros Hc chosen n nextPos. subst chosen n nextPos.
  unfold moveCycle. rewrite Hc.
  destruct (makeAIDecision W (grid s) (trailGrid s) (rng s) c) as [d n].
  cbn [fst snd].
  destruct (checkCollision (trailGrid s)
              (getNextPositionInDirection (position c) d)) eqn:E.
  - do 4 eexists. split; [reflexivity|]. simpl.
    split; [done|]. split; [done|]. left. by repeat split.
  - do 4 eexists. split; [reflexivity|]. simpl.
    split; [done|]. split; [done|]. right. by repeat split.
Qed.

Lemma moveCycle_frame (s : Game) i :
  let s' := moveCycle W s i in
  grid s' = grid s /\ state s' = state s /\ score s' = score s
  /\ speed s' = speed s /\ lastMoveTime s' = lastMoveTime s
  /\ restartDelay s' = restartDelay s /\ restartTime s' = restartTime s
  /\ gameStartTime s' = gameStartTime s /\ frameCount s' = frameCount s
  /\ length (cycles s') = length (cycles s).
Proof.
  destruct (cycles s !! i) as [c|] eqn:Hc.
  - destruct (moveCycle_step s i c Hc) as (c' & tg' & ps' & n' & -> & _).
    simpl. rewrite length_insert. by repeat split.
  - simpl. rewrite moveCycle_absent by done. by repeat split.
Qed.

Lemma moveCycle_other (s : Game) i j :
  i <> j -> cycles (moveCycle W s i) !! j = cycles s !! j.
Proof.
  intros Hne. destruct (cycles s !! i) as [c|] eqn:Hc.
  - destruct (moveCycle_step s i c Hc) as (c' & tg' & ps' & n' & -> & _).
    simpl. by apply list_lookup_insert_ne.
  - by rewrite moveCycle_absent.
Qed.

Lemma moveCycle_wellFormed (s : Game) i :
  wellFormed s -> wellFormed (moveCycle W s i).
Proof.
  intros [Hs Hn Hid Hpos Hd].
  destruct (cycles s !! i) as [c|] eqn:Hc;
    [|rewrite moveCycle_absent by done; by constructor].
  assert (In c (cycles s)) as Hin
    by (eapply list_elem_of_In, list_elem_of_lookup_2, Hc).
  pose proof (Hid c Hin) as Hidc. pose proof (Hpos c Hin) as Hposc.
  destruct (moveCycle_step s i c Hc)
    as (c' & tg' & ps' & n' & -> & Hi & _ & Hcase).
  assert (isValidPosition (position c') = true) as Hpos'.
  { destruct Hcase as [(_ & _ & -> & _)|(Hfree & _ & -> & _)]; [done|].
    by apply checkCollision_false in Hfree as [? _]. }
  assert (forall c0, In c0 (<[i:=c']> (cycles s)) -> c0 = c' \/ In c0 (cycles s))
    as Hmem.
  { intros c0 H0. apply list_elem_of_In, list_elem_of_lookup_1 in H0 as [j Hj].
    destruct (decide (i = j)) as [->|Hne].
    - rewrite list_lookup_insert_eq in Hj
        by (eapply lookup_lt_Some, Hc). left. congruence.
    - rewrite list_lookup_insert_ne in Hj by done.
      right. eapply list_elem_of_In, list_elem_of_lookup_2, Hj. }
  constructor; simpl.
  - destruct Hcase as [(_ & _ & _ & _ & -> & _)|(_ & _ & _ & _ & -> & _)];
      [done|]. rewrite Hposc. by apply setCell_shape.
  - destruct Hcase as [(_ & _ & _ & _ & -> & _)|(_ & _ & _ & _ & -> & _)];
      [done|]. rewrite Hposc. apply setCell_nonNegative; [lia|done].
  - intros c0 H0. destruct (Hmem c0 H0) as [->|H1]; [lia|auto].
  - intros c0 H0. destruct (Hmem c0 H0) as [->|H1]; auto.
  - done.
Qed.

Lemma moveCycle_grows (s : Game) i :
  wellFormed s -> grows (trailGrid s) (trailGrid (moveCycle W s i)).
Proof.
  intros [Hs Hn Hid Hpos Hd].
  destruct (cycles s !! i) as [c|] eqn:Hc;
    [|rewrite moveCycle_absent by done; apply grows_refl].
  assert (In c (cycles s)) as Hin
    by (eapply list_elem_of_In, list_elem_of_lookup_2, Hc).
  pose proof (Hid c Hin) as Hidc. pose proof (Hpos c Hin) as Hposc.
  destruct (moveCycle_step s i c Hc)
    as (c' & tg' & ps' & n' & -> & _ & _ & Hcase). simpl.
  destruct Hcase as [(_ & _ & _ & _ & -> & _)|(_ & _ & _ & _ & -> & _)];
    [apply grows_refl|].
  rewrite Hposc. apply grows_setCell; [done|done|lia].
Qed.

(** The only cell a move can write is the one the cycle stands on, and
    it then holds the cycle's identifier. *)
Lemma moveCycle_cell (s : Game) i p :
  wellFormed s ->
  cellAt (trailGrid (moveCycle W s i)) p = cellAt (trailGrid s) p
  \/ exists c, cycles s !! i = Some c /\ position c = p
               /\ cellAt (trailGrid (moveCycle W s i)) p = Some (id c).
Proof.
  intros [Hs Hn Hid Hpos Hd].
  destruct (cycles s !! i) as [c|] eqn:Hc;
    [|rewrite moveCycle_absent by done; by left].
  assert (In c (cycles s)) as Hin
    by (eapply list_elem_of_In, list_elem_of_lookup_2, Hc).
  pose proof (Hpos c Hin) as Hposc.
  destruct (moveCycle_step s i c Hc)
    as (c' & tg' & ps' & n' & -> & _ & _ & Hcase). simpl.
  destruct Hcase as [(_ & _ & _ & _ & -> & _)|(_ & _ & _ & _ & -> & _)];
    [by left|].
  rewrite Hposc. destruct (decide (p = position c)) as [->|Hne].
  - right. exists c. by rewrite cellAt_setCell_eq.
  - left. by apply cellAt_setCell_ne.
Qed.

End Move.

(* ================================================================== *)
(** ** The whole loop of a tick *)
(* ================================================================== *)

Lemma aliveIndices_In cs i :
  In i (aliveIndices cs) <-> exists c, cs !! i = Some c /\ alive c = true.
Proof.
  unfold aliveIndices. rewrite filter_In, in_seq.
  split.
  - intros [_ H]. destruct (cs !! i) as [c|]; [eauto|discriminate].
  - intros [c [Hc Ha]]. rewrite Hc. split; [|done].
    apply lookup_lt_Some in Hc. lia.
Qed.

Lemma aliveIndices_NoDup cs : List.NoDup (aliveIndices cs).
Proof. apply List.NoDup_filter, seq_NoDup. Qed.

Lemma aliveIndices_length cs :
  length (aliveIndices cs) = length (List.filter alive cs).
Proof.
  unfold aliveIndices.
  induction cs as [|c cs IH] using rev_ind; [done|].
  rewrite length_app, Nat.add_1_r, seq_S, !List.filter_app, !length_app.
  simpl. rewrite lookup_app_r, Nat.sub_diag by lia. simpl.
  rewrite <- IH. f_equal.
  - f_equal. apply filter_ext_in. intros i Hi. apply in_seq in Hi.
    by rewrite lookup_app_l by lia.
  - by destruct (alive c).
Qed.

Section Tick.
Context {P : Type} (W : World P).

Local Abbreviation Game := (TronGame P).

Lemma moveAll_frame l (s : Game) :
  let s' := fold_left (moveCycle W) l s in
  grid s' = grid s /\ state s' = state s /\ score s' = score s
  /\ speed s' = speed s /\ lastMoveTime s' = lastMoveTime s
  /\ restartDelay s' = restartDelay s /\ restartTime s' = restartTime s
  /\ gameStartTime s' = gameStartTime s /\ frameCount s' = frameCount s
  /\ length (cycles s') = length (cycles s).
Proof.
  revert s. induction l as [|i l IH]; intros s; simpl; [by repeat split|].
  specialize (IH (moveCycle W s i)). simpl in IH.
  pose proof (moveCycle_frame W s i) as Hf. simpl in Hf.
  destruct IH as (-> & -> & -> & -> & -> & -> & -> & -> & -> & ->).
  destruct Hf as (-> & -> & -> & -> & -> & -> & -> & -> & -> & ->).
  by repeat split.
Qed.

Lemma moveAll_wellFormed l (s : Game) :
  wellFormed s -> wellFormed (fold_left (moveCycle W) l s).
Proof.
  revert s. induction l as [|i l IH]; intros s Hwf; simpl; [done|].
  by apply IH, moveCycle_wellFormed.
Qed.

Lemma moveAll_grows l (s : Game) :
  wellFormed s ->
  grows (trailGrid s) (trailGrid (fold_left (moveCycle W) l s)).
Proof.
  revert s. induction l as [|i l IH]; intros s Hwf; simpl;
    [apply grows_refl|].
  eapply grows_trans; [by apply moveCycle_grows|].
  by apply IH, moveCycle_wellFormed.
Qed.

Lemma moveAll_other l (s : Game) i :
  ~ In i l -> cycles (fold_left (moveCycle W) l s) !! i = cycles s !! i.
Proof.
  revert s. induction l as [|j l IH]; intros s Hni; simpl; [done|].
  rewrite IH by (intros H; apply Hni; by right).
  apply moveCycle_other. intros ->. apply Hni. by left.
Qed.

(** Where a cell of the trail changed during the loop, a cycle that was
    moved stood on that cell before the loop, and the cell holds the
    identifier of such a cycle. *)
Lemma moveAll_cell l (s : Game) p :
  wellFormed s -> List.NoDup l ->
  cellAt (trailGrid (fold_left (moveCycle W) l s)) p = cellAt (trailGrid s) p
  \/ exists i c, In i l /\ cycles s !! i = Some c /\ position c = p
                 /\ cellAt (trailGrid (fold_left (moveCycle W) l s)) p
                    = Some (id c).
Proof.
  revert s. induction l as [|i l IH]; intros s Hwf Hnd; simpl; [by left|].
  apply NoDup_cons_iff in Hnd as [Hni Hnd].
  destruct (IH (moveCycle W s i) (moveCycle_wellFormed W s i Hwf) Hnd)
    as [Heq|(j & c & Hj & Hc & Hp & Hcell)].
  - rewrite Heq.
    destruct (moveCycle_cell W s i p Hwf) as [?|(c & Hc & Hp & Hcell)];
      [by left|].
    right. exists i, c. split; [by left|done].
  - right. exists j, c. split; [by right|].
    rewrite moveCycle_other in Hc by (intros ->; done). done.
Qed.

(** What the loop does to one cycle: it is untouched, or it crashed
    where it stood, or it stepped into a cell that was free when the
    loop began. *)
Lemma moveAll_cycle l (s : Game) i c :
  wellFormed s -> List.NoDup l -> cycles s !! i = Some c ->
  exists c',
    cycles (fold_left (moveCycle W) l s) !! i = Some c' /\ id c' = id c
    /\ ((~ In i l /\ c' = c)
        \/ (In i l /\ alive c' = false /\ position c' = position c)
        \/ (In i l /\ alive c' = alive c
            /\ position c'
               = getNextPositionInDirection (position c) (direction c')
            /\ checkCollision (trailGrid s) (position c') = false)).
Proof.
  revert s c. induction l as [|j l IH]; intros s c Hwf Hnd Hc; simpl.
  { exists c. split; [done|]. split; [done|]. left. split; [|done]. tauto. }
  apply NoDup_cons_iff in Hnd as [Hni Hnd].
  pose proof (moveCycle_wellFormed W s j Hwf) as Hwf1.
  destruct (decide (j = i)) as [->|Hne].
  - destruct (moveCycle_step W s i c Hc)
      as (c1 & tg' & ps' & n' & Heq & Hid & Hdir & Hcase).
    exists c1. rewrite moveAll_other by done. rewrite Heq. simpl.
    rewrite list_lookup_insert_eq by (eapply lookup_lt_Some, Hc).
    split; [done|]. split; [done|]. right.
    destruct Hcase as [(_ & Ha & Hp & _)|(Hfree & Ha & Hp & _)].
    + left. split; [by left|done].
    + right. split; [by left|]. split; [done|].
      rewrite Hdir. split; [done|]. by rewrite Hp.
  - assert (cycles (moveCycle W s j) !! i = Some c) as Hc1
      by (by rewrite moveCycle_other).
    destruct (IH _ c Hwf1 Hnd Hc1) as (c' & Hl & Hid & Hcase).
    exists c'. split; [done|]. split; [done|].
    destruct Hcase as [[Hn ->]|[(Hin & Ha & Hp)|(Hin & Ha & Hp & Hfree)]].
    + left. split; [|done]. intros [?|?]; [done|tauto].
    + right. left. split; [by right|done].
    + right. right. split; [by right|]. split; [done|]. split; [done|].
      destruct (checkCollision (trailGrid s) (position c')) eqn:E; [|done].
      rewrite (grows_blocked _ _ _ (wf_shape _ Hwf)
                 (moveCycle_grows W s j Hwf) E) in Hfree. done.
Qed.

(** A cycle that is boxed in when the loop begins and is moved by it
    keeps its heading and crashes where it stands. *)
Lemma moveAll_boxed l (s : Game) i c :
  wellFormed s -> List.NoDup l -> cycles s !! i = Some c -> In i l ->
  boxedIn (trailGrid s) c ->
  exists c',
    cycles (fold_left (moveCycle W) l s) !! i = Some c'
    /\ alive c' = false /\ position c' = position c
    /\ direction c' = direction c.
Proof.
  revert s. induction l as [|j l IH]; intros s Hwf Hnd Hc Hin Hbox;
    [destruct Hin|].
  simpl. apply NoDup_cons_iff in Hnd as [Hni Hnd].
  pose proof (moveCycle_wellFormed W s j Hwf) as Hwf1.
  destruct (decide (j = i)) as [->|Hne].
  - destruct (moveCycle_step W s i c Hc)
      as (c1 & tg' & ps' & n' & Heq & Hid & Hdir & Hcase).
    rewrite makeAIDecision_boxed in Hdir, Hcase
      by (by apply boxedIn_no_candidate).
    simpl in Hdir, Hcase.
    exists c1. rewrite moveAll_other by done. rewrite Heq. simpl.
    rewrite list_lookup_insert_eq by (eapply lookup_lt_Some, Hc).
    split; [done|].
    destruct Hcase as [(_ & Ha & Hp & _)|(Hfree & _)]; [done|].
    rewrite Hbox in Hfree; [done|].
    intros H. symmetry in H. by apply opposite_differs in H.
  - destruct Hin as [?|Hin]; [done|].
    apply IH; try done.
    + by rewrite moveCycle_other.
    + eapply grows_boxedIn; [apply (wf_shape _ Hwf)| |done].
      by apply moveCycle_grows.
Qed.

End Tick.

(* ================================================================== *)
(** ** Reset and the cases of [update] *)
(* ================================================================== *)

Lemma spawnTrail_cells p :
  isValidPosition p = true -> cellAt spawnTrail p = Some (spawnId p).
Proof.
  intros Hv. apply allCells_complete in Hv.
  assert (forallb (fun q => match cellAt spawnTrail q with
                            | Some v => v =? spawnId q
                            | None => false
                            end) allCells = true) as Hall
    by (vm_compute; reflexivity).
  rewrite forallb_forall in Hall. specialize (Hall p Hv).
  destruct (cellAt spawnTrail p) as [v|]; [|discriminate].
  apply Z.eqb_eq in Hall. by subst.
Qed.

Lemma spawnTrail_shape : trailShape spawnTrail.
Proof. unfold spawnTrail. repeat apply setCell_shape. apply emptyTrail_shape. Qed.

Lemma spawnTrail_nonNegative : nonNegative spawnTrail.
Proof.
  unfold spawnTrail.
  repeat (apply setCell_nonNegative; [lia|]).
  unfold nonNegative, emptyTrail.
  apply Forall_replicate, Forall_replicate. lia.
Qed.

Section Lifecycle.
Context {P : Type} (W : World P).

Local Abbreviation Game := (TronGame P).

Lemma createCycles_spawn n :
  map position (createCycles W n) = corners
  /\ map id (createCycles W n) = [1; 2; 3; 4]
  /\ map alive (createCycles W n) = [true; true; true; true]
  /\ map pathfindingMemory (createCycles W n) = [[]; []; []; []].
Proof. by repeat split. Qed.

Lemma reset_trail now (s : Game) : trailGrid (reset W now s) = spawnTrail.
Proof. reflexivity. Qed.

Lemma reset_wellFormed now (s : Game) :
  restartDelay s = 1000 -> wellFormed (reset W now s).
Proof.
  intros Hd. constructor.
  - rewrite reset_trail. apply spawnTrail_shape.
  - rewrite reset_trail. apply spawnTrail_nonNegative.
  - intros c Hc. simpl in Hc.
    destruct Hc as [<-|[<-|[<-|[<-|[]]]]]; simpl; lia.
  - intros c Hc. simpl in Hc.
    destruct Hc as [<-|[<-|[<-|[<-|[]]]]]; reflexivity.
  - done.
Qed.

Lemma newGame_wellFormed g now : wellFormed (newGame W g now).
Proof. by apply reset_wellFormed. Qed.

Lemma tickFrame_wellFormed (s : Game) :
  wellFormed s -> wellFormed (tickFrame W s).
Proof. intros []. by constructor. Qed.

Lemma initiateRestart_wellFormed t (s : Game) :
  wellFormed s -> wellFormed (initiateRestart W t s).
Proof. intros []. by constructor. Qed.

Lemma settle_wellFormed t n (s : Game) :
  wellFormed s -> wellFormed (settle t n s).
Proof. intros []. by constructor. Qed.

(** The five ways through [update]. *)
Lemma update_restarting_wait t now (s : Game) :
  state s = RESTARTING -> t - restartTime s <= restartDelay s ->
  update W t now s = tickFrame W s.
Proof.
  intros Hs Ht. unfold update. simpl. rewrite Hs.
  destruct (Z.ltb_spec (restartDelay s) (t - restartTime s)); [lia|done].
Qed.

Lemma update_restarting_reset t now (s : Game) :
  state s = RESTARTING -> restartDelay s < t - restartTime s ->
  update W t now s = reset W now (tickFrame W s).
Proof.
  intros Hs Ht. unfold update. simpl. rewrite Hs.
  destruct (Z.ltb_spec (restartDelay s) (t - restartTime s)); [done|lia].
Qed.

Lemma update_playing_wait t now (s : Game) :
  state s = PLAYING -> t - lastMoveTime s < speed s ->
  update W t now s = tickFrame W s.
Proof.
  intros Hs Ht. unfold update. simpl. rewrite Hs.
  destruct (Z.ltb_spec (t - lastMoveTime s) (speed s)); [done|lia].
Qed.

Lemma update_playing_restart t now (s : Game) :
  state s = PLAYING -> speed s <= t - lastMoveTime s ->
  (length (aliveCycles s) <= 1)%nat ->
  update W t now s = initiateRestart W t (tickFrame W s).
Proof.
  intros Hs Ht Hn. unfold update. simpl. rewrite Hs.
  destruct (Z.ltb_spec (t - lastMoveTime s) (speed s)); [lia|].
  rewrite aliveIndices_length.
  unfold aliveCycles in Hn.
  destruct (Nat.leb_spec (length (List.filter alive (cycles s))) 1); [done|lia].
Qed.

Lemma update_playing_move t now (s : Game) :
  state s = PLAYING -> speed s <= t - lastMoveTime s ->
  (2 <= length (aliveCycles s))%nat ->
  update W t now s
  = settle t (Z.of_nat (length (aliveCycles s)))
      (fold_left (moveCycle W) (aliveIndices (cycles s)) (tickFrame W s)).
Proof.
  intros Hs Ht Hn. unfold update. simpl. rewrite Hs.
  destruct (Z.ltb_spec (t - lastMoveTime s) (speed s)); [lia|].
  rewrite aliveIndices_length.
  unfold aliveCycles in *.
  destruct (Nat.leb_spec (length (List.filter alive (cycles s))) 1); [lia|done].
Qed.

Lemma update_wellFormed t now (s : Game) :
  wellFormed s -> wellFormed (update W t now s).
Proof.
  intros Hwf. pose proof (tickFrame_wellFormed s Hwf) as Hwf1.
  unfold update. destruct (state (tickFrame W s)).
  - destruct (_ <? _); [done|].
    destruct (_ <=? _)%nat.
    + by apply initiateRestart_wellFormed.
    + by apply settle_wellFormed, moveAll_wellFormed.
  - destruct (_ <? _); [|done].
    apply reset_wellFormed. apply (wf_delay _ Hwf1).
Qed.

Lemma reachable_wellFormed (s : Game) : reachable W s -> wellFormed s.
Proof.
  induction 1 as [g now|s t now Hr IH|s now Hr IH].
  - apply newGame_wellFormed.
  - by apply update_wellFormed.
  - apply reset_wellFormed, (wf_delay _ IH).
Qed.

Lemma reachable_play times (s : Game) :
  reachable W s -> reachable W (play W times s).
Proof.
  revert s. induction times as [|t l IH]; intros s Hr; simpl; [done|].
  apply IH. by constructor.
Qed.

End Lifecycle.

(* ================================================================== *)
(** ** Properties of a tick *)
(* ================================================================== *)

Lemma trailLength_occupied tg :
  nonNegative tg -> trailLength tg = occupiedCells tg.
Proof.
  intros Hn. unfold trailLength, occupiedCells. do 2 f_equal.
  apply filter_ext_in. intros v Hv.
  assert (0 <= v) as Hv0.
  { apply in_concat in Hv as [row [Hrow Hv]].
    apply list_elem_of_In in Hrow, Hv.
    eapply (proj1 (Forall_forall _ _)); [|exact Hv].
    eapply (proj1 (Forall_forall _ _) Hn); exact Hrow. }
  destruct (Z.ltb_spec 0 v), (Z.eqb_spec v 0); simpl; lia.
Qed.

Section TickProperties.
Context {P : Type} (W : World P).

Local Abbreviation Game := (TronGame P).

(** One cycle across a call of [update] made while [PLAYING]. *)
Lemma update_playing_cycle t now (s : Game) i c :
  wellFormed s -> state s = PLAYING -> cycles s !! i = Some c ->
  exists c',
    cycles (update W t now s) !! i = Some c' /\ id c' = id c
    /\ (c' = c
        \/ (alive c = true /\ alive c' = false
            /\ position c' = position c)
        \/ (alive c = true /\ alive c' = true
            /\ position c'
               = getNextPositionInDirection (position c) (direction c')
            /\ checkCollision (trailGrid s) (position c') = false)).
Proof.
  intros Hwf Hs Hc.
  destruct (Z.ltb_spec (t - lastMoveTime s) (speed s)) as [Hw|Hw].
  { rewrite update_playing_wait by done. exists c. simpl. auto. }
  destruct (Nat.leb_spec (length (aliveCycles s)) 1) as [Hn|Hn].
  { rewrite update_playing_restart by done. exists c. simpl. auto. }
  rewrite update_playing_move by (done || lia). simpl.
  destruct (moveAll_cycle W (aliveIndices (cycles s)) (tickFrame W s) i c
              (tickFrame_wellFormed W s Hwf) (aliveIndices_NoDup _) Hc)
    as (c' & Hl & Hid & Hcase).
  exists c'. split; [done|]. split; [done|].
  destruct Hcase as [[_ ->]|[(Hin & Ha & Hp)|(Hin & Ha & Hp & Hfree)]].
  - by left.
  - apply aliveIndices_In in Hin as (c0 & Hc0 & Ha0). simpl in Hc0.
    assert (c0 = c) as -> by congruence. right. left. done.
  - apply aliveIndices_In in Hin as (c0 & Hc0 & Ha0). simpl in Hc0.
    assert (c0 = c) as -> by congruence. right. right.
    split; [done|]. split; [congruence|]. done.
Qed.

(** One cell across a move step. *)
Lemma update_playing_cell t now (s : Game) p :
  wellFormed s -> state s = PLAYING ->
  cellAt (trailGrid (update W t now s)) p = cellAt (trailGrid s) p
  \/ exists i c, cycles s !! i = Some c /\ alive c = true
                 /\ position c = p
                 /\ cellAt (trailGrid (update W t now s)) p = Some (id c).
Proof.
  intros Hwf Hs.
  destruct (Z.ltb_spec (t - lastMoveTime s) (speed s)) as [Hw|Hw].
  { rewrite update_playing_wait by done. by left. }
  destruct (Nat.leb_spec (length (aliveCycles s)) 1) as [Hn|Hn].
  { rewrite update_playing_restart by done. by left. }
  rewrite update_playing_move by (done || lia). simpl.
  destruct (moveAll_cell W (aliveIndices (cycles s)) (tickFrame W s) p
              (tickFrame_wellFormed W s Hwf) (aliveIndices_NoDup _))
    as [?|(i & c & Hin & Hc & Hp & Hcell)]; [by left|].
  right. exists i, c. split; [done|]. split; [|done].
  apply aliveIndices_In in Hin as (c0 & Hc0 & Ha0). simpl in *. congruence.
Qed.

End TickProperties.

(** C1 (as the code has it).  Within a round an occupied cell of the trail
    is never cleared: across any call of [update] that does not reset the
    round, a cell that held a non-zero value still holds a non-zero value.
    The write is unconditional, not first-writer-wins: the value stays the
    same or becomes the identifier of a cycle that was alive and standing
    on that cell when the call began.  The only other outcome is the reset
    that ends the restart delay, which leaves the trail of a fresh round. *)
Theorem trail_cell_stays_occupied {P} (W : World P) (s : TronGame P)
    t now p v :
  reachable W s -> cellAt (trailGrid s) p = Some v -> v <> 0 ->
  (state s = RESTARTING /\ restartDelay s < t - restartTime s
   /\ trailGrid (update W t now s) = spawnTrail)
  \/ exists v',
       cellAt (trailGrid (update W t now s)) p = Some v' /\ v' <> 0
       /\ (v' = v
           \/ exists i c, cycles s !! i = Some c /\ alive c = true
                          /\ position c = p /\ id c = v').
Proof.
  intros Hr Hcell Hv. pose proof (reachable_wellFormed W s Hr) as Hwf.
  destruct (state s) eqn:Hs.
  - right.
    destruct (update_playing_cell W t now s p Hwf Hs)
      as [Heq|(i & c & Hc & Ha & Hp & Hnew)].
    + exists v. rewrite Heq. auto.
    + exists (id c). split; [done|]. split.
      * assert (0 < id c); [|lia]. apply (wf_ids _ Hwf).
        eapply list_elem_of_In, list_elem_of_lookup_2, Hc.
      * right. by exists i, c.
  - destruct (Z.ltb_spec (restartDelay s) (t - restartTime s)) as [Hd|Hd].
    + left. rewrite update_restarting_reset by done. done.
    + right. rewrite update_restarting_wait by done. exists v. simpl. auto.
Qed.

(** C5 (as the code has it).  A collision is a step into a blocked cell.
    In the body of the move loop, when the cell a cycle is about to enter
    is out of bounds or holds a non-zero trail value, the cycle is marked
    dead, stays where it is and the trail is not written.  Otherwise the
    cycle moves there: the test reads the trail and nothing else, so not
    where the other cycles stand.  Such a step writes the identifier of
    the cycle into the cell it leaves and into no other cell: the cell it
    has entered still holds 0 when the step is done. *)
Theorem collision_is_blocked_step {P} (W : World P) (s : TronGame P) i c :
  wellFormed s -> cycles s !! i = Some c ->
  let chosen := fst (makeAIDecision W (grid s) (trailGrid s) (rng s) c) in
  let nextPos := getNextPositionInDirection (position c) chosen in
  exists c',
    cycles (moveCycle W s i) !! i = Some c' /\ id c' = id c
    /\ (checkCollision (trailGrid s) nextPos = true ->
        alive c' = false /\ position c' = position c
        /\ trailGrid (moveCycle W s i) = trailGrid s)
    /\ (checkCollision (trailGrid s) nextPos = false ->
        alive c' = alive c /\ position c' = nextPos
        /\ trailGrid (moveCycle W s i)
           = setCell (trailGrid s) (position c) (id c)
        /\ cellAt (trailGrid (moveCycle W s i)) (position c) = Some (id c)
        /\ cellAt (trailGrid (moveCycle W s i)) nextPos = Some 0).
Proof.
  intros Hwf Hc chosen nextPos.
  assert (In c (cycles s)) as Hin
    by (eapply list_elem_of_In, list_elem_of_lookup_2, Hc).
  pose proof (wf_positions _ Hwf c Hin) as Hpos.
  destruct (moveCycle_step W s i c Hc)
    as (c' & tg' & ps' & n' & Heq & Hid & Hdir & Hcase).
  fold chosen in Hcase, Hdir. fold nextPos in Hcase.
  exists c'. rewrite Heq. simpl.
  rewrite list_lookup_insert_eq by (eapply lookup_lt_Some, Hc).
  split; [done|]. split; [done|].
  destruct Hcase as [(Hb & Ha & Hp & _ & -> & _)|(Hf & Ha & Hp & _ & -> & _)].
  - split; [done|]. rewrite Hb. discriminate.
  - split; [rewrite Hf; discriminate|]. intros _. rewrite Hpos.
    split; [done|]. split; [done|]. split; [done|].
    split; [apply cellAt_setCell_eq; [apply (wf_shape _ Hwf)|done]|].
    apply checkCollision_false in Hf as [Hv Hz].
    rewrite cellAt_setCell_ne; [done|done|].
    subst nextPos. intros H. apply (f_equal x) in H as Hx.
    apply (f_equal y) in H as Hy. destruct chosen; simpl in Hx, Hy; lia.
Qed.


(** What a move step stores as the score: [survivalSeconds * 10 +
    activeCycles * 5 + trailLength], with the number of non-zero cells of
    the trail after the moves, but with the length of the array of alive
    cycles that was filtered before the moves. *)
Lemma score_after_move_step {P} (W : World P) (s : TronGame P) t now :
  reachable W s -> state s = PLAYING -> speed s <= t - lastMoveTime s ->
  (2 <= length (aliveCycles s))%nat ->
  score (update W t now s)
  = (t - gameStartTime s) / 1000 * 10
    + Z.of_nat (length (aliveCycles s)) * 5
    + occupiedCells (trailGrid (update W t now s)).
Proof.
  intros Hr Hs Ht Hn. pose proof (reachable_wellFormed W s Hr) as Hwf.
  rewrite update_playing_move by done. simpl.
  pose proof (moveAll_frame W (aliveIndices (cycles s)) (tickFrame W s)) as Hf.
  simpl in Hf. destruct Hf as (_ & _ & _ & _ & _ & _ & _ & -> & _).
  rewrite trailLength_occupied; [done|].
  apply wf_cells, moveAll_wellFormed, tickFrame_wellFormed, Hwf.
Qed.

(** C2 (as the code has it).  The alive cycles are counted when a move
    step begins, before anything moves: a permitted tick that finds at most
    one cycle alive moves nothing, sets the state to [RESTARTING], records
    the time and emits an explosion for the cycle still alive, if any.  (So
    the state changes on the first permitted tick after the count dropped,
    not in the call in which it dropped.)  While [RESTARTING] nothing
    happens until a call of [update] finds that more than 1000 ms have
    passed; that call resets the round: state [PLAYING], score 0, speed
    200, elapsed time 0 (the round starts [now]), no particles, four alive
    cycles with identifiers 1 to 4 on the four spawn cells with empty
    memories, and a trail that is 0 everywhere except on the four spawn
    cells, which hold the identifiers of their cycles. *)
Theorem restart_cycle {P} (W : World P) (s : TronGame P) t now :
  reachable W s ->
  (state s = PLAYING -> speed s <= t - lastMoveTime s ->
   (length (aliveCycles s) <= 1)%nat ->
   let s' := update W t now s in
   state s' = RESTARTING /\ restartTime s' = t
   /\ cycles s' = cycles s /\ trailGrid s' = trailGrid s
   /\ score s' = score s /\ speed s' = speed s
   /\ particles s'
      = updateParticles W (particles s)
        ++ match aliveCycles s with
           | c :: _ => explosion W (position c) (rng s)
           | [] => []
           end)
  /\ (state s = RESTARTING -> t - restartTime s <= 1000 ->
      let s' := update W t now s in
      state s' = RESTARTING /\ restartTime s' = restartTime s
      /\ cycles s' = cycles s /\ trailGrid s' = trailGrid s)
  /\ (state s = RESTARTING -> 1000 < t - restartTime s ->
      let s' := update W t now s in
      state s' = PLAYING /\ score s' = 0 /\ speed s' = 200
      /\ gameStartTime s' = now /\ lastMoveTime s' = 0
      /\ particles s' = [] /\ frameCount s' = 0
      /\ map position (cycles s') = corners
      /\ map id (cycles s') = [1; 2; 3; 4]
      /\ map alive (cycles s') = [true; true; true; true]
      /\ map pathfindingMemory (cycles s') = [[]; []; []; []]
      /\ trailGrid s' = spawnTrail
      /\ (forall p, isValidPosition p = true ->
                    cellAt (trailGrid s') p = Some (spawnId p))).
Proof.
  intros Hr. pose proof (reachable_wellFormed W s Hr) as Hwf.
  pose proof (wf_delay _ Hwf) as Hd.
  split; [|split].
  - intros Hs Ht Hn s'. subst s'.
    rewrite update_playing_restart by done. simpl.
    repeat (split; [done|]).
    unfold aliveCycles in *. simpl.
    destruct (List.filter alive (cycles s)) as [|c [|c2 l]]; simpl in *;
      [by rewrite app_nil_r|done|lia].
  - intros Hs Ht s'. subst s'.
    rewrite update_restarting_wait by (done || lia). by simpl.
  - intros Hs Ht s'. subst s'.
    rewrite update_restarting_reset by (done || lia).
    repeat (split; [reflexivity|]).
    intros p Hv. rewrite reset_trail. by apply spawnTrail_cells.
Qed.

(** C3 (as the code has it).  For an alive cycle whose three non-reverse
    neighbouring cells are all blocked, [makeAIDecision] returns the
    current heading (and draws no random number).  In the next permitted
    tick the cycle is marked dead, in place and with its heading
    unchanged, provided at least two cycles are alive when that tick
    begins.  When it is the only cycle alive, the tick moves nothing: the
    round goes to [RESTARTING] and the cycle keeps its alive flag. *)
Theorem boxed_in_cycle {P} (W : World P) (s : TronGame P) i c :
  reachable W s -> cycles s !! i = Some c -> alive c = true ->
  boxedIn (trailGrid s) c ->
  (forall n, makeAIDecision W (grid s) (trailGrid s) n c = (direction c, n))
  /\ (forall t now, state s = PLAYING -> speed s <= t - lastMoveTime s ->
        ((2 <= length (aliveCycles s))%nat ->
         exists c', cycles (update W t now s) !! i = Some c'
                    /\ alive c' = false /\ position c' = position c
                    /\ direction c' = direction c)
        /\ ((length (aliveCycles s) <= 1)%nat ->
            state (update W t now s) = RESTARTING
            /\ cycles (update W t now s) = cycles s)).
Proof.
  intros Hr Hc Ha Hbox. pose proof (reachable_wellFormed W s Hr) as Hwf.
  split.
  - intros n. by apply makeAIDecision_boxed, boxedIn_no_candidate.
  - intros t now Hs Ht. split; intros Hn.
    + rewrite update_playing_move by done. simpl.
      apply (moveAll_boxed W (aliveIndices (cycles s)) (tickFrame W s) i c);
        try done.
      * by apply tickFrame_wellFormed.
      * apply aliveIndices_NoDup.
      * apply aliveIndices_In. eauto.
    + rewrite update_playing_restart by done. by simpl.
Qed.

(** C10.  A call of [update] that performs no move step, because the game
    is [RESTARTING] and the restart delay has not run out or because less
    than [speed] ms have passed since the last move, only increments the
    frame counter and ages the particles: score, speed, lifecycle state,
    trail, cycles (position, heading, alive flag, memory) and all timers
    are as before, and no random number is drawn. *)
Theorem update_without_move {P} (W : World P) (s : TronGame P) t now :
  (state s = RESTARTING /\ t - restartTime s <= restartDelay s)
  \/ (state s = PLAYING /\ t - lastMoveTime s < speed s) ->
  let s' := update W t now s in
  frameCount s' = frameCount s + 1
  /\ particles s' = updateParticles W (particles s)
  /\ score s' = score s /\ speed s' = speed s /\ state s' = state s
  /\ trailGrid s' = trailGrid s /\ cycles s' = cycles s
  /\ grid s' = grid s /\ lastMoveTime s' = lastMoveTime s
  /\ restartDelay s' = restartDelay s /\ restartTime s' = restartTime s
  /\ gameStartTime s' = gameStartTime s /\ rng s' = rng s.
Proof.
  intros H s'. subst s'.
  destruct H as [[Hs Ht]|[Hs Ht]].
  - rewrite update_restarting_wait by done. by repeat split.
  - rewrite update_playing_wait by done. by repeat split.
Qed.

(* ================================================================== *)
(** ** The loops of [extractFeatures] compute the features of the specification *)
(* ================================================================== *)

Lemma safetyLoop_run k tg p d acc :
  safetyLoop k tg p d acc
  = acc + Z.of_nat (leadingRun (unblocked tg) (cellsAhead k p d)).
Proof.
  revert p acc. induction k as [|k IH]; intros p acc; simpl; [lia|].
  unfold unblocked at 1.
  destruct (checkCollision tg p); simpl; [lia|].
  rewrite IH. lia.
Qed.

Lemma count_fold {A} (f : A -> bool) (l : list A) (acc : Z) :
  fold_left (fun count a => if f a then count + 1 else count) l acc
  = acc + Z.of_nat (length (List.filter f l)).
Proof.
  revert acc. induction l as [|a l IH]; intros acc; simpl; [lia|].
  rewrite IH. destruct (f a); simpl; lia.
Qed.

Lemma openSpace_fold tg n (rows cols : list Z) (acc : Z) :
  fold_left (fun count dy =>
    fold_left (fun count dx =>
      if (dx =? 0) && (dy =? 0) then count
      else
        let checkPos := mkPoint (x n + dx) (y n + dy) in
        if isValidPosition checkPos && negb (checkCollision tg checkPos)
        then count + 1 else count) cols count) rows acc
  = acc + Z.of_nat (length (List.filter
      (fun q => negb (Point_eqb q n) && unblocked tg q)
      (flat_map (fun dy => map (fun dx => mkPoint (x n + dx) (y n + dy)) cols)
         rows))).
Proof.
  revert acc. induction rows as [|dy rows IH]; intros acc; simpl; [lia|].
  rewrite IH, List.filter_app, length_app, Nat2Z.inj_add, Z.add_assoc.
  f_equal.
  rewrite <- (count_fold
    (fun q => negb (Point_eqb q n) && unblocked tg q)
    (map (fun dx => mkPoint (x n + dx) (y n + dy)) cols) acc).
  clear IH. revert acc.
  induction cols as [|dx cols IH]; intros acc; simpl; [done|].
  rewrite IH. f_equal.
  unfold Point_eqb, unblocked. simpl.
  replace (x n + dx =? x n) with (dx =? 0)
    by (destruct (Z.eqb_spec dx 0), (Z.eqb_spec (x n + dx) (x n)); lia).
  replace (y n + dy =? y n) with (dy =? 0)
    by (destruct (Z.eqb_spec dy 0), (Z.eqb_spec (y n + dy) (y n)); lia).
  destruct ((dx =? 0) && (dy =? 0)); simpl; [done|].
  destruct (isValidPosition _) eqn:Hv; simpl.
  - by destruct (checkCollision _ _).
  - by rewrite checkCollision_outside.
Qed.

Lemma countOpenSpaceAround_square tg n :
  countOpenSpaceAround tg n 2 = specOpenSpace tg n.
Proof.
  unfold countOpenSpaceAround, specOpenSpace, square. cbv zeta.
  by rewrite openSpace_fold.
Qed.

Lemma near_chebyshev p n :
  (Z.abs (x p - x n) <=? 2) && (Z.abs (y p - y n) <=? 2)
  = (chebyshev p n <=? 2).
Proof.
  unfold chebyshev.
  destruct (Z.leb_spec (Z.abs (x p - x n)) 2),
           (Z.leb_spec (Z.abs (y p - y n)) 2),
           (Z.leb_spec (Z.max (Z.abs (x p - x n)) (Z.abs (y p - y n))) 2);
    simpl; lia.
Qed.

(** C7.  The score of a candidate heading [d] is the fixed linear
    combination of the eight features taken at the cell [n] next to the
    cycle in heading [d]: consecutive unblocked cells ahead (at most 10)
    x 15, unblocked cells within Chebyshev radius 2 of [n] x 8, distance
    to the nearest border x 5, [max(0, 10 - k)] x 3, same heading x 2, low
    activity at [n] x 4, [n] blocked x (-20), unblocked onward headings
    x 6. *)
Theorem score_is_weighted_sum g tg cycle d :
  let n := getNextPositionInDirection (position cycle) d in
  neuralEvaluateDirection g tg cycle d
  = specSafetyDistance tg n d * 15
    + specOpenSpace tg n * 8
    + specEdgeDistance n * 5
    + specPathDiversity (pathfindingMemory cycle) n * 3
    + specContinuity (direction cycle) d * 2
    + specExploration g n * 4
    + specAvoidance tg n * (-20)
    + specFutureOptions tg n d * 6.
Proof.
  intros n. unfold neuralEvaluateDirection, extractFeatures.
  cbn [safetyDistance openSpace edgeDistance pathDiversity continuity
       exploration avoidance futureOptions].
  fold n.
  rewrite safetyLoop_run, countOpenSpaceAround_square.
  unfold specSafetyDistance, specEdgeDistance, specPathDiversity,
    specContinuity, specExploration, specAvoidance, specFutureOptions,
    countFutureOptions, unblocked.
  rewrite (filter_ext _ _ (fun p => near_chebyshev p n)).
  replace (if Direction_eqb d (direction cycle) then 1 else 0)
    with (if decide (d = direction cycle) then 1 else 0).
  2:{ destruct (decide (d = direction cycle)) as [->|Hne].
      - by rewrite Direction_eqb_refl.
      - apply Direction_eqb_neq in Hne. by rewrite Hne. }
  replace (if checkCollision tg n then 1 else 0)
    with (if negb (checkCollision tg n) then 0 else 1)
    by (by destruct (checkCollision tg n)).
  rewrite (filter_ext
    (fun dir => if Direction_eqb dir (getOppositeDirection d) then false
                else negb (checkCollision tg (getNextPositionInDirection n dir)))
    (fun d' => negb (Direction_eqb d' (getOppositeDirection d))
               && negb (checkCollision tg (getNextPositionInDirection n d'))))
    by (intros a; by destruct (Direction_eqb a _)).
  lia.
Qed.

(* ================================================================== *)
(** ** Double arithmetic: signs, NaN, and the softmax on a draw of 0 *)
(* ================================================================== *)

Lemma binary_round_aux_nonneg m e l :
  nonneg (binary_round_aux 53 1024 false m e l).
Proof.
  unfold binary_round_aux.
  destruct (shr_fexp 53 1024 m e l) as [mrs' e'].
  destruct (shr_fexp 53 1024 _ e' loc_Exact) as [mrs'' e''].
  destruct (shr_m mrs''); [reflexivity| |exact I].
  destruct (e'' <=? 1024 - 53); reflexivity.
Qed.

Lemma binary_round_nonneg m e : nonneg (binary_round 53 1024 false m e).
Proof.
  unfold binary_round. destruct (shl_align m e _) as [mz ez].
  apply binary_round_aux_nonneg.
Qed.

Lemma doubleOfZ_nonneg z : 0 <= z -> nonneg (doubleOfZ z).
Proof.
  intros Hz. unfold doubleOfZ, binary_normalize.
  destruct z; [reflexivity|apply binary_round_nonneg|lia].
Qed.

Lemma SFadd_nonneg a b :
  nonneg a -> nonneg b -> nonneg (SFadd 53 1024 a b).
Proof.
  destruct a as [sa|sa| |sa ma ea], b as [sb|sb| |sb mb eb];
    intros Ha Hb; cbn [nonneg] in Ha, Hb; subst;
    try reflexivity; try exact I.
  unfold SFadd, binary_normalize, cond_Zopp.
  destruct (shl_align ma ea _) as [ma' ea'], (shl_align mb eb _) as [mb' eb'].
  cbn [fst Z.add]. apply binary_round_nonneg.
Qed.

Lemma SFdiv_nonneg a b :
  nonneg a -> nonneg b -> nonneg (SFdiv 53 1024 a b).
Proof.
  destruct a as [sa|sa| |sa ma ea], b as [sb|sb| |sb mb eb];
    intros Ha Hb; cbn [nonneg] in Ha, Hb; subst;
    try reflexivity; try exact I.
  unfold SFdiv.
  destruct (SFdiv_core_binary 53 1024 _ ea _ eb) as [[mz ez] lz].
  apply binary_round_aux_nonneg.
Qed.

(** Only NaN is neither negative nor at least 0. *)
Lemma nonneg_not_le z :
  nonneg z -> SFleb (S754_zero false) z = false -> z = S754_nan.
Proof.
  destruct z as [s|s| |s m e]; cbn [nonneg]; intros H Hle; subst;
    try reflexivity; discriminate Hle.
Qed.

Lemma SFleb_nan_r a : SFleb a S754_nan = false.
Proof. destruct a; reflexivity. Qed.

Lemma Math_exp_hostExp : hostExp Math_exp.
Proof.
  rewrite Math_exp_unseal. split.
  - intros [s|s| |s m e]; unfold Math_exp_def.
    + apply doubleOfZ_nonneg. lia.
    + destruct s; reflexivity.
    + exact I.
    + destruct (SFleb (doubleOfZ 710) _); [reflexivity|].
      destruct (SFleb _ (doubleOfZ (-746))); [reflexivity|].
      cbv zeta. destruct (expSeries 32 1 _); [reflexivity| |reflexivity].
      apply binary_round_nonneg.
  - intros [s|s| |s m e] H; unfold Math_exp_def.
    + discriminate H.
    + destruct s; [discriminate H|reflexivity].
    + discriminate H.
    + rewrite H. reflexivity.
Qed.

(** [Math_exp] at a few arguments: e^0 = 1, e^1 = 2.718281828459045,
    e^709 = 8.218407461554972e307 (the last integer below the overflow),
    [Infinity] at 710, and 0 at [-Infinity]. *)
Lemma Math_exp_values :
  Math_exp (doubleOfZ 0) = doubleOfZ 1
  /\ Math_exp (doubleOfZ 1) = S754_finite false 6121026514868073 (-51)
  /\ Math_exp (doubleOfZ 709) = S754_finite false 8235536102055067 970
  /\ Math_exp (doubleOfZ 710) = S754_infinity false
  /\ Math_exp (S754_infinity true) = S754_zero false.
Proof. rewrite Math_exp_unseal. vm_compute. repeat split; reflexivity. Qed.

Section DoubleSoftmax.
Context {P : Type} (mexp : Double -> Double) (draws : nat -> Double)
  (boom : Z -> Z -> list Double -> list P) (age : list P -> list P).

Hypothesis engine : hostExp mexp.

Local Abbreviation W := (Doubles mexp draws boom age).

Lemma expScores_nonneg evaluations : Forall nonneg (expScores W evaluations).
Proof.
  unfold expScores. apply List.Forall_map, List.Forall_forall.
  intros e _. apply (exp_nonneg _ engine).
Qed.

Lemma sum_nonneg (l : list Double) (a : Double) :
  nonneg a -> Forall nonneg l ->
  nonneg (fold_left (fun sum exp => SFadd 53 1024 sum exp) l a).
Proof.
  intros Ha Hl. revert a Ha.
  induction Hl as [|b l Hb Hl IH]; intros a Ha; [exact Ha|].
  cbn [fold_left]. apply IH, SFadd_nonneg; assumption.
Qed.

Lemma probabilities_nonneg evaluations :
  Forall nonneg (probabilities W evaluations).
Proof.
  unfold probabilities. apply List.Forall_map.
  eapply Forall_impl; [exact (expScores_nonneg evaluations)|].
  intros e He. cbn [ndiv Doubles]. apply SFdiv_nonneg; [exact He|].
  unfold sumExp. cbn [nadd ofZ Doubles].
  apply sum_nonneg; [apply doubleOfZ_nonneg; lia|apply expScores_nonneg].
Qed.

(** Once the running sum is NaN no comparison holds any more. *)
Lemma selectLoop_nan evaluations probs rnd :
  selectLoop W evaluations probs rnd S754_nan = None.
Proof.
  revert probs. induction evaluations as [|e evaluations IH];
    intros [|p probs]; try reflexivity.
  cbn [selectLoop nadd nle Doubles].
  change (SFadd 53 1024 S754_nan p) with S754_nan.
  rewrite SFleb_nan_r. apply IH.
Qed.

Lemma selectLoop_first_nan e evaluations probs rnd :
  selectLoop W (e :: evaluations) (S754_nan :: probs) rnd (ofZ W 0) = None.
Proof.
  cbn [selectLoop nadd nle ofZ Doubles].
  change (SFadd 53 1024 (doubleOfZ 0) S754_nan) with S754_nan.
  rewrite SFleb_nan_r. apply selectLoop_nan.
Qed.

(** On a draw of 0 the first candidate of the sorted array is returned:
    by the loop when the first probability is a number, by the final
    [return] when it is NaN. *)
Lemma softmaxSelect_zero e evaluations fallback :
  softmaxSelect W (e :: evaluations) (S754_zero false) fallback = fst e.
Proof.
  unfold softmaxSelect.
  pose proof (probabilities_nonneg (e :: evaluations)) as Hp.
  destruct (probabilities W (e :: evaluations)) as [|p probs] eqn:E;
    [discriminate E|].
  apply Forall_inv in Hp.
  cbn [selectLoop nadd nle ofZ Doubles].
  assert (nonneg (SFadd 53 1024 (doubleOfZ 0) p)) as Hc
    by (apply SFadd_nonneg; [apply doubleOfZ_nonneg; lia|exact Hp]).
  destruct (SFleb (S754_zero false) (SFadd 53 1024 (doubleOfZ 0) p)) eqn:Hle;
    [reflexivity|].
  rewrite (nonneg_not_le _ Hc Hle), selectLoop_nan. reflexivity.
Qed.

End DoubleSoftmax.

(* ================================================================== *)
(** ** Two hosts that make the same game *)
(* ================================================================== *)

Lemma fold_left_pointwise {A B} (f h : A -> B -> A) (l : list B) (a : A) :
  (forall a b, f a b = h a b) -> fold_left f l a = fold_left h l a.
Proof.
  intros Hfh. revert a. induction l as [|b l IH]; intros a; simpl; [done|].
  by rewrite Hfh, IH.
Qed.

Section Agreement.
Context {P : Type} (W1 W2 : World P).

Hypothesis same : agree W1 W2.

Lemma makeAIDecision_agree g tg n cycle :
  makeAIDecision W1 g tg n cycle = makeAIDecision W2 g tg n cycle.
Proof.
  unfold makeAIDecision. destruct (getSafeDirections tg cycle); [done|].
  by rewrite (agree_select same).
Qed.

Lemma createCycles_agree n : createCycles W1 n = createCycles W2 n.
Proof.
  unfold createCycles. apply imap_ext. intros i c _.
  by rewrite (agree_direction same).
Qed.

Lemma reset_agree now (s : TronGame P) : reset W1 now s = reset W2 now s.
Proof. unfold reset. by rewrite createCycles_agree. Qed.

Lemma newGame_agree g now : newGame W1 g now = newGame W2 g now.
Proof. apply reset_agree. Qed.

Lemma tickFrame_agree (s : TronGame P) : tickFrame W1 s = tickFrame W2 s.
Proof. unfold tickFrame. by rewrite (agree_particles same). Qed.

Lemma initiateRestart_agree t (s : TronGame P) :
  initiateRestart W1 t s = initiateRestart W2 t s.
Proof.
  unfold initiateRestart.
  rewrite (fold_left_pointwise
    (fun acc cycle =>
       (fst acc ++ explosion W1 (position cycle) (snd acc),
        (snd acc + 36)%nat))
    (fun acc cycle =>
       (fst acc ++ explosion W2 (position cycle) (snd acc),
        (snd acc + 36)%nat))); [done|].
  intros a b. by rewrite (agree_explosion same).
Qed.

Lemma moveCycle_agree (s : TronGame P) i :
  moveCycle W1 s i = moveCycle W2 s i.
Proof.
  unfold moveCycle. destruct (cycles s !! i) as [c|]; [|done].
  rewrite makeAIDecision_agree.
  destruct (makeAIDecision W2 (grid s) (trailGrid s) (rng s) c) as [d n].
  destruct (checkCollision _ _); [|done].
  by rewrite (agree_explosion same).
Qed.

Lemma update_agree t now (s : TronGame P) :
  update W1 t now s = update W2 t now s.
Proof.
  unfold update. rewrite tickFrame_agree.
  destruct (state (tickFrame W2 s)).
  - destruct (_ <? _); [done|].
    destruct (_ <=? _)%nat; [apply initiateRestart_agree|].
    f_equal. apply fold_left_pointwise. apply moveCycle_agree.
  - destruct (_ <? _); [apply reset_agree|done].
Qed.

Lemma play_agree times (s : TronGame P) :
  play W1 times s = play W2 times s.
Proof.
  unfold play. apply fold_left_pointwise. intros a b. apply update_agree.
Qed.

End Agreement.

(* ================================================================== *)
(** ** The concrete games: double arithmetic with draws of 0 plays greedily *)
(* ================================================================== *)

Lemma ZeroDraws_Greedy : agree ZeroDraws Greedy.
Proof.
  constructor.
  - intros n. reflexivity.
  - intros [|e l] n fallback; [reflexivity|].
    unfold ZeroDraws. cbn [random Doubles].
    rewrite (softmaxSelect_zero _ _ _ _ Math_exp_hostExp). reflexivity.
  - reflexivity.
  - reflexivity.
Qed.

Lemma stripeRun_agree n : stripeRun ZeroDraws n = stripeRun Greedy n.
Proof.
  unfold stripeRun.
  rewrite (newGame_agree _ _ ZeroDraws_Greedy).
  apply play_agree, ZeroDraws_Greedy.
Qed.

Lemma zeroRun_agree n : zeroRun ZeroDraws n = zeroRun Greedy n.
Proof.
  unfold zeroRun.
  rewrite (newGame_agree _ _ ZeroDraws_Greedy).
  apply play_agree, ZeroDraws_Greedy.
Qed.

Lemma stripeRun_reachable W n : reachable W (stripeRun W n).
Proof. apply reachable_play, reachable_new. Qed.

Lemma zeroRun_reachable W n : reachable W (zeroRun W n).
Proof. apply reachable_play, reachable_new. Qed.

Lemma update_ZeroDraws t now s :
  update ZeroDraws t now s = update Greedy t now s.
Proof. apply update_agree, ZeroDraws_Greedy. Qed.

(* ================================================================== *)
(** ** Where the code departs from the specification *)
(* ================================================================== *)

(** C1, counterexample.  After 20 ticks of the striped game the cell
    (25, 3) holds 3: cycle 3 wrote it when it left, while cycle 2 had
    already stepped onto it.  In tick 21 cycle 2 leaves and writes 2 over
    it.  The game is [PLAYING] before and after; nothing was reset. *)
Lemma trail_cell_overwritten :
  let s := stripeRun ZeroDraws 20 in
  let s' := update ZeroDraws 4200 4200 s in
  (reachable ZeroDraws s
   /\ state s = PLAYING /\ state s' = PLAYING
   /\ cellAt (trailGrid s) (mkPoint 25 3) = Some 3
   /\ cellAt (trailGrid s') (mkPoint 25 3) = Some 2)
  /\ ~ writeOnce ZeroDraws.
Proof.
  cbv zeta.
  assert (state (stripeRun ZeroDraws 20) = PLAYING
          /\ state (update ZeroDraws 4200 4200 (stripeRun ZeroDraws 20))
             = PLAYING
          /\ cellAt (trailGrid (stripeRun ZeroDraws 20)) (mkPoint 25 3)
             = Some 3
          /\ cellAt (trailGrid (update ZeroDraws 4200 4200
                                  (stripeRun ZeroDraws 20))) (mkPoint 25 3)
             = Some 2) as (H1 & H2 & H3 & H4).
  { rewrite update_ZeroDraws, stripeRun_agree. vm_compute. by repeat split. }
  split.
  { exact (conj (stripeRun_reachable _ _) (conj H1 (conj H2 (conj H3 H4)))). }
  intros Hclaim.
  specialize (Hclaim (stripeRun ZeroDraws 20) 4200 4200 (mkPoint 25 3) 3
                (stripeRun_reachable _ _) H1 H3).
  rewrite H4 in Hclaim. specialize (Hclaim ltac:(lia)). discriminate Hclaim.
Qed.

(** C5, counterexample.  After 20 ticks of the game on the empty grid,
    cycles 1 and 3 are both alive and both on the cell (26, 3): cycle 3
    stepped onto it right after cycle 1 did, and did not crash. *)
Lemma two_cycles_on_one_cell :
  let s := zeroRun ZeroDraws 20 in
  (reachable ZeroDraws s
   /\ heads s = [ (1, (26, 3), true); (2, (34, 2), true);
                  (3, (26, 3), true); (4, (32, 4), true) ]
   /\ heads (zeroRun ZeroDraws 19)
      = [ (1, (26, 2), true); (2, (33, 2), true);
          (3, (26, 4), true); (4, (31, 4), true) ])
  /\ ~ distinctHeads ZeroDraws.
Proof.
  cbv zeta.
  assert (heads (zeroRun ZeroDraws 20)
          = [ (1, (26, 3), true); (2, (34, 2), true);
              (3, (26, 3), true); (4, (32, 4), true) ]) as H20
    by (rewrite zeroRun_agree; vm_compute; reflexivity).
  assert (heads (zeroRun ZeroDraws 19)
          = [ (1, (26, 2), true); (2, (33, 2), true);
              (3, (26, 4), true); (4, (31, 4), true) ]) as H19
    by (rewrite zeroRun_agree; vm_compute; reflexivity).
  split; [exact (conj (zeroRun_reachable _ _) (conj H20 H19))|].
  intros Hclaim. specialize (Hclaim _ (zeroRun_reachable ZeroDraws 20)).
  assert (map position (aliveCycles (zeroRun ZeroDraws 20))
          = [mkPoint 26 3; mkPoint 34 2; mkPoint 26 3; mkPoint 32 4]) as Hp
    by (rewrite zeroRun_agree; vm_compute; reflexivity).
  rewrite Hp in Hclaim.
  apply NoDup_cons_iff in Hclaim as [Hni _]. apply Hni.
  right. left. reflexivity.
Qed.

(** C6, at the failing input.  The striped game has two cycles alive
    after 110 ticks; one of them crashes in tick 111 (at 22200 ms).  One
    cycle is alive after the moves, 22 seconds have passed and the trail
    has 249 occupied cells, so the score of the claim is 22 * 10 + 1 * 5 +
    249 = 474.  [update] stores 479: its count of alive cycles is the
    length of the array filtered before the moves, in which the cycle that
    has just crashed is still present. *)
Theorem score_counts_crashed_cycle :
  let s := stripeRun ZeroDraws 110 in
  let s' := update ZeroDraws 22200 22200 s in
  (reachable ZeroDraws s /\ state s = PLAYING
   /\ speed s <= 22200 - lastMoveTime s
   /\ length (aliveCycles s) = 2%nat /\ length (aliveCycles s') = 1%nat
   /\ (22200 - gameStartTime s) / 1000 = 22
   /\ occupiedCells (trailGrid s') = 249
   /\ score s' = 479)
  /\ ~ scoreCountsSurvivors ZeroDraws.
Proof.
  cbv zeta.
  assert (state (stripeRun ZeroDraws 110) = PLAYING
    /\ speed (stripeRun ZeroDraws 110)
       <= 22200 - lastMoveTime (stripeRun ZeroDraws 110)
    /\ length (aliveCycles (stripeRun ZeroDraws 110)) = 2%nat
    /\ length (aliveCycles (update ZeroDraws 22200 22200
                              (stripeRun ZeroDraws 110))) = 1%nat
    /\ (22200 - gameStartTime (stripeRun ZeroDraws 110)) / 1000 = 22
    /\ occupiedCells (trailGrid (update ZeroDraws 22200 22200
                                   (stripeRun ZeroDraws 110))) = 249
    /\ score (update ZeroDraws 22200 22200 (stripeRun ZeroDraws 110)) = 479)
    as (H1 & H2 & H3 & H4 & H5 & H6 & H7).
  { rewrite update_ZeroDraws, stripeRun_agree. vm_compute.
    repeat split; congruence. }
  split.
  { exact (conj (stripeRun_reachable _ _)
             (conj H1 (conj H2 (conj H3 (conj H4 (conj H5 (conj H6 H7))))))). }
  intros Hclaim.
  specialize (Hclaim (stripeRun ZeroDraws 110) 22200 22200
                (stripeRun_reachable _ _) H1 H2 ltac:(lia)).
  rewrite H4, H5, H6, H7 in Hclaim. lia.
Qed.

(** C2, counterexample.  In tick 111 of the striped game the number of
    alive cycles drops from 2 to 1, yet the state is still [PLAYING] when
    the call returns; it becomes [RESTARTING] in tick 112, at 22400 ms.
    The call at 23600 ms then resets the round, and in the fresh trail the
    spawn cell (8, 1) holds 1, not 0. *)
Lemma restart_neither_immediate_nor_blank :
  let s := stripeRun ZeroDraws 110 in
  let s' := update ZeroDraws 22200 22200 s in
  let r := stripeRun ZeroDraws 117 in
  let r' := update ZeroDraws 23600 23600 r in
  (reachable ZeroDraws s /\ state s = PLAYING
   /\ length (aliveCycles s) = 2%nat /\ length (aliveCycles s') = 1%nat
   /\ state s' = PLAYING
   /\ reachable ZeroDraws r /\ state r = RESTARTING
   /\ restartTime r = 22400 /\ state r' = PLAYING
   /\ cellAt (trailGrid r') (mkPoint 8 1) = Some 1)
  /\ ~ restartsImmediately ZeroDraws
  /\ ~ resetZeroesTrail ZeroDraws.
Proof.
  cbv zeta.
  assert (state (stripeRun ZeroDraws 110) = PLAYING
    /\ length (aliveCycles (stripeRun ZeroDraws 110)) = 2%nat
    /\ length (aliveCycles (update ZeroDraws 22200 22200
                              (stripeRun ZeroDraws 110))) = 1%nat
    /\ state (update ZeroDraws 22200 22200 (stripeRun ZeroDraws 110))
       = PLAYING) as (H1 & H2 & H3 & H4).
  { rewrite update_ZeroDraws, stripeRun_agree. vm_compute. by repeat split. }
  assert (state (stripeRun ZeroDraws 117) = RESTARTING
    /\ restartTime (stripeRun ZeroDraws 117) = 22400
    /\ state (update ZeroDraws 23600 23600 (stripeRun ZeroDraws 117))
       = PLAYING
    /\ cellAt (trailGrid (update ZeroDraws 23600 23600
                            (stripeRun ZeroDraws 117))) (mkPoint 8 1)
       = Some 1) as (R1 & R2 & R3 & R4).
  { rewrite update_ZeroDraws, stripeRun_agree. vm_compute. by repeat split. }
  split; [|split].
  - exact (conj (stripeRun_reachable _ _)
             (conj H1 (conj H2 (conj H3 (conj H4
                (conj (stripeRun_reachable _ _)
                   (conj R1 (conj R2 (conj R3 R4))))))))).
  - intros Hclaim.
    specialize (Hclaim (stripeRun ZeroDraws 110) 22200 22200
                  (stripeRun_reachable _ _) H1 ltac:(lia) ltac:(lia)).
    rewrite H4 in Hclaim. discriminate Hclaim.
  - intros Hclaim.
    specialize (Hclaim (stripeRun ZeroDraws 117) 23600 23600 (mkPoint 8 1)
                  (stripeRun_reachable _ _) R1 ltac:(lia) eq_refl).
    rewrite R4 in Hclaim. discriminate Hclaim.
Qed.

(** C3, counterexample.  After 111 ticks of the striped game cycle 1, at
    (30, 2) and heading [LEFT], is the only cycle alive, and the cells to
    its left, above and below are occupied.  The next permitted tick, at
    22400 ms, does not mark it dead: the round goes to [RESTARTING] and the
    cycle is alive as before. *)
Lemma boxed_survivor_stays_alive :
  let s := stripeRun ZeroDraws 111 in
  let s' := update ZeroDraws 22400 22400 s in
  (exists c,
     reachable ZeroDraws s /\ state s = PLAYING
     /\ speed s <= 22400 - lastMoveTime s
     /\ cycles s !! 0%nat = Some c /\ aliveCycles s = [c]
     /\ position c = mkPoint 30 2 /\ direction c = LEFT
     /\ cellAt (trailGrid s) (mkPoint 29 2) = Some 2
     /\ cellAt (trailGrid s) (mkPoint 30 1) = Some 2
     /\ cellAt (trailGrid s) (mkPoint 30 3) = Some 4
     /\ boxedIn (trailGrid s) c
     /\ cycles s' !! 0%nat = Some c /\ alive c = true
     /\ state s' = RESTARTING)
  /\ ~ boxedSurvivorDies ZeroDraws.
Proof.
  cbv zeta.
  assert (exists c,
    state (stripeRun ZeroDraws 111) = PLAYING
    /\ speed (stripeRun ZeroDraws 111)
       <= 22400 - lastMoveTime (stripeRun ZeroDraws 111)
    /\ cycles (stripeRun ZeroDraws 111) !! 0%nat = Some c
    /\ aliveCycles (stripeRun ZeroDraws 111) = [c]
    /\ position c = mkPoint 30 2 /\ direction c = LEFT
    /\ cellAt (trailGrid (stripeRun ZeroDraws 111)) (mkPoint 29 2) = Some 2
    /\ cellAt (trailGrid (stripeRun ZeroDraws 111)) (mkPoint 30 1) = Some 2
    /\ cellAt (trailGrid (stripeRun ZeroDraws 111)) (mkPoint 30 3) = Some 4
    /\ getSafeDirections (trailGrid (stripeRun ZeroDraws 111)) c = []
    /\ cycles (update ZeroDraws 22400 22400 (stripeRun ZeroDraws 111))
         !! 0%nat = Some c
    /\ alive c = true
    /\ state (update ZeroDraws 22400 22400 (stripeRun ZeroDraws 111))
       = RESTARTING)
    as (c & H1 & H2 & H3 & H4 & H5 & H6 & H7 & H8 & H9 & H10 & H11 & H12 & H13).
  { rewrite update_ZeroDraws, stripeRun_agree. eexists. vm_compute.
    repeat split; congruence. }
  apply boxedIn_no_candidate in H10.
  split.
  - exists c.
    exact (conj (stripeRun_reachable _ _)
             (conj H1 (conj H2 (conj H3 (conj H4 (conj H5 (conj H6
                (conj H7 (conj H8 (conj H9 (conj H10
                   (conj H11 (conj H12 H13))))))))))))).
  - intros Hclaim.
    destruct (Hclaim (stripeRun ZeroDraws 111) 22400 22400 0%nat c
                (stripeRun_reachable _ _) H1 H2 H3 H4 H10)
      as (c' & Hc' & Hdead).
    rewrite H11 in Hc'. injection Hc' as <-. rewrite H12 in Hdead.
    discriminate Hdead.
Qed.

(* ================================================================== *)
(** ** The theorems at work on the concrete game *)
(* ================================================================== *)

Lemma trail_cell_stays_occupied_witness :
  let s := stripeRun ZeroDraws 20 in
  (reachable ZeroDraws s
   /\ cellAt (trailGrid s) (mkPoint 25 3) = Some 3 /\ 3 <> 0)
  /\ ((state s = RESTARTING /\ restartDelay s < 4200 - restartTime s
       /\ trailGrid (update ZeroDraws 4200 4200 s) = spawnTrail)
      \/ exists v',
           cellAt (trailGrid (update ZeroDraws 4200 4200 s)) (mkPoint 25 3)
           = Some v' /\ v' <> 0
           /\ (v' = 3
               \/ exists i c, cycles s !! i = Some c /\ alive c = true
                              /\ position c = mkPoint 25 3 /\ id c = v')).
Proof.
  cbv zeta.
  assert (cellAt (trailGrid (stripeRun ZeroDraws 20)) (mkPoint 25 3) = Some 3)
    as Hcell by (rewrite stripeRun_agree; vm_compute; reflexivity).
  split.
  - split; [apply stripeRun_reachable|]. split; [exact Hcell|lia].
  - apply (trail_cell_stays_occupied ZeroDraws (stripeRun ZeroDraws 20)
             4200 4200 (mkPoint 25 3) 3);
      [apply stripeRun_reachable|exact Hcell|lia].
Defined.

Lemma collision_is_blocked_step_witness :
  let s := stripeRun ZeroDraws 20 in
  exists c,
    (wellFormed s /\ cycles s !! 1%nat = Some c)
    /\ exists c',
         cycles (moveCycle ZeroDraws s 1) !! 1%nat = Some c'
         /\ id c' = id c.
Proof.
  cbv zeta.
  assert (exists c, cycles (stripeRun ZeroDraws 20) !! 1%nat = Some c)
    as [c Hc] by (rewrite stripeRun_agree; eexists; vm_compute; reflexivity).
  assert (wellFormed (stripeRun ZeroDraws 20)) as Hwf
    by (eapply reachable_wellFormed, stripeRun_reachable).
  exists c. split; [exact (conj Hwf Hc)|].
  destruct (collision_is_blocked_step ZeroDraws (stripeRun ZeroDraws 20)
              1%nat c Hwf Hc) as (c' & H1 & H2 & _).
  exists c'. exact (conj H1 H2).
Defined.


Lemma restart_cycle_witness :
  let s := stripeRun ZeroDraws 111 in
  let r := stripeRun ZeroDraws 117 in
  (reachable ZeroDraws s /\ state s = PLAYING
   /\ speed s <= 22400 - lastMoveTime s
   /\ (length (aliveCycles s) <= 1)%nat
   /\ reachable ZeroDraws r /\ state r = RESTARTING
   /\ 1000 < 23600 - restartTime r)
  /\ state (update ZeroDraws 22400 22400 s) = RESTARTING
  /\ state (update ZeroDraws 23600 23600 r) = PLAYING
  /\ trailGrid (update ZeroDraws 23600 23600 r) = spawnTrail.
Proof.
  cbv zeta.
  assert (state (stripeRun ZeroDraws 111) = PLAYING
    /\ speed (stripeRun ZeroDraws 111)
       <= 22400 - lastMoveTime (stripeRun ZeroDraws 111)
    /\ (length (aliveCycles (stripeRun ZeroDraws 111)) <= 1)%nat
    /\ state (stripeRun ZeroDraws 117) = RESTARTING
    /\ 1000 < 23600 - restartTime (stripeRun ZeroDraws 117))
    as (H1 & H2 & H3 & H4 & H5).
  { rewrite !stripeRun_agree. vm_compute.
    split; [reflexivity|]. split; [congruence|].
    split; [repeat constructor|]. by split. }
  split.
  - exact (conj (stripeRun_reachable _ _)
             (conj H1 (conj H2 (conj H3
                (conj (stripeRun_reachable _ _) (conj H4 H5)))))).
  - destruct (restart_cycle ZeroDraws (stripeRun ZeroDraws 111) 22400 22400
                (stripeRun_reachable _ _)) as (HA & _ & _).
    destruct (restart_cycle ZeroDraws (stripeRun ZeroDraws 117) 23600 23600
                (stripeRun_reachable _ _)) as (_ & _ & HC).
    split; [apply (HA H1 H2 H3)|].
    split; apply (HC H4 H5).
Defined.

Lemma boxed_in_cycle_witness :
  let s := stripeRun ZeroDraws 110 in
  exists c,
    (reachable ZeroDraws s /\ cycles s !! 3%nat = Some c /\ alive c = true
     /\ boxedIn (trailGrid s) c)
    /\ state s = PLAYING /\ length (aliveCycles s) = 2%nat
    /\ exists c',
         cycles (update ZeroDraws 22200 22200 s) !! 3%nat = Some c'
         /\ alive c' = false /\ position c' = position c
         /\ direction c' = direction c.
Proof.
  cbv zeta.
  assert (exists c,
    cycles (stripeRun ZeroDraws 110) !! 3%nat = Some c /\ alive c = true
    /\ getSafeDirections (trailGrid (stripeRun ZeroDraws 110)) c = []
    /\ state (stripeRun ZeroDraws 110) = PLAYING
    /\ speed (stripeRun ZeroDraws 110)
       <= 22200 - lastMoveTime (stripeRun ZeroDraws 110)
    /\ length (aliveCycles (stripeRun ZeroDraws 110)) = 2%nat)
    as (c & H1 & H2 & H3 & H4 & H5 & H6).
  { rewrite stripeRun_agree. eexists. vm_compute.
    repeat split; congruence. }
  apply boxedIn_no_candidate in H3.
  exists c. split; [|split; [exact H4|split; [exact H6|]]].
  - exact (conj (stripeRun_reachable _ _) (conj H1 (conj H2 H3))).
  - destruct (boxed_in_cycle ZeroDraws (stripeRun ZeroDraws 110) 3%nat c
                (stripeRun_reachable _ _) H1 H2 H3) as [_ Htick].
    destruct (Htick 22200 22200 H4 H5) as [Hdies _].
    apply Hdies. lia.
Defined.

Lemma update_without_move_witness :
  let s := stripeRun ZeroDraws 20 in
  (state s = PLAYING /\ 4100 - lastMoveTime s < speed s)
  /\ frameCount (update ZeroDraws 4100 4100 s) = frameCount s + 1
  /\ trailGrid (update ZeroDraws 4100 4100 s) = trailGrid s
  /\ cycles (update ZeroDraws 4100 4100 s) = cycles s.
Proof.
  cbv zeta.
  assert (state (stripeRun ZeroDraws 20) = PLAYING
          /\ 4100 - lastMoveTime (stripeRun ZeroDraws 20)
             < speed (stripeRun ZeroDraws 20)) as [H1 H2]
    by (rewrite stripeRun_agree; vm_compute; by split).
  split; [exact (conj H1 H2)|].
  destruct (update_without_move ZeroDraws (stripeRun ZeroDraws 20) 4100 4100)
    as (Hf & _ & _ & _ & _ & Ht & Hc & _); [right; exact (conj H1 H2)|].
  exact (conj Hf (conj Ht Hc)).
Defined.

(* ================================================================== *)
(** ** What a round keeps true: the proofs *)
(* ================================================================== *)

Lemma map_insert_same {A B} (f : A -> B) (l : list A) i a a' :
  l !! i = Some a -> f a' = f a -> map f (<[i:=a']> l) = map f l.
Proof.
  revert i. induction l as [|b l IH]; intros [|i] Hl Hf; simpl in *;
    try done.
  - injection Hl as ->. by rewrite Hf.
  - by rewrite IH.
Qed.

Lemma In_insert {A} (l : list A) i a a0 :
  In a0 (<[i:=a]> l) -> a0 = a \/ In a0 l.
Proof.
  revert i. induction l as [|b l IH]; intros [|i]; simpl; try tauto.
  - intros [<-|H]; auto.
  - intros [<-|H]; [auto|]. destruct (IH i H); auto.
Qed.

Lemma setCell_owned tg pos v :
  0 <= v <= 4 -> ownedCells tg -> ownedCells (setCell tg pos v).
Proof.
  intros Hv Hn. unfold ownedCells, setCell.
  apply Forall_alter; [done|]. intros row Hrow Hall.
  by apply Forall_insert.
Qed.

Lemma spawnTrail_owned : ownedCells spawnTrail.
Proof.
  unfold spawnTrail.
  repeat (apply setCell_owned; [lia|]).
  unfold ownedCells, emptyTrail.
  apply Forall_replicate, Forall_replicate. lia.
Qed.

Lemma ownedCells_cell tg p v :
  ownedCells tg -> cellAt tg p = Some v -> 0 <= v <= 4.
Proof.
  intros Ho Hc. unfold cellAt in Hc.
  destruct ((y p <? 0) || (x p <? 0)); [done|].
  destruct (tg !! Z.to_nat (y p)) as [row|] eqn:Hrow; [|done].
  pose proof (Forall_lookup_1 _ _ _ _ Ho Hrow) as Hr. simpl in Hr.
  apply (Forall_lookup_1 _ _ _ _ Hr Hc).
Qed.

Lemma occupied_grows tg tg' p : grows tg tg' -> occupied tg p -> occupied tg' p.
Proof. intros Hg (v & Hc & Hv). apply (Hg p v Hc Hv). Qed.

Lemma remember_length memory p :
  (length memory <= 20)%nat -> (length (remember memory p) <= 20)%nat.
Proof.
  intros Hl. unfold remember.
  destruct (Nat.ltb_spec 20 (length (memory ++ [p]))) as [Hlt|Hge]; [|done].
  rewrite length_app in Hlt. simpl in Hlt.
  destruct memory as [|q memory]; simpl in *; [lia|].
  rewrite length_app. simpl. lia.
Qed.

Lemma remember_In memory p q :
  In q (remember memory p) -> In q memory \/ q = p.
Proof.
  unfold remember. intros H.
  assert (In q (memory ++ [p])) as Hin.
  { destruct (20 <? length (memory ++ [p]))%nat; [|done].
    destruct (memory ++ [p]); [done|]. by right. }
  apply in_app_or in Hin as [?|[<-|[]]]; auto.
Qed.

Lemma remember_last memory p d :
  remember memory p <> [] /\ List.last (remember memory p) d = p.
Proof.
  unfold remember.
  destruct (Nat.ltb_spec 20 (length (memory ++ [p]))) as [Hlt|Hge].
  - destruct memory as [|q memory]; [simpl in Hlt; lia|].
    simpl. split; [by destruct memory|]. apply last_last.
  - split; [by destruct memory|]. apply last_last.
Qed.

Lemma id_in_roster (cs : list LightCycle) c :
  map id cs = [1; 2; 3; 4] -> In c cs -> 1 <= id c <= 4.
Proof.
  intros Hids Hc.
  assert (In (id c) [1; 2; 3; 4]) as Hin
    by (rewrite <- Hids; by apply in_map).
  simpl in Hin. lia.
Qed.

Section Steady.
Context {P : Type} (W : World P).

Local Abbreviation Game := (TronGame P).

Lemma moveCycle_colors (s : Game) i c c' :
  cycles s !! i = Some c -> cycles (moveCycle W s i) !! i = Some c' ->
  color c' = color c /\ glowColor c' = glowColor c.
Proof.
  intros Hc. unfold moveCycle. rewrite Hc.
  destruct (makeAIDecision W (grid s) (trailGrid s) (rng s) c) as [d n].
  destruct (checkCollision _ _); simpl;
    rewrite list_lookup_insert_eq by (eapply lookup_lt_Some, Hc);
    intros [= <-]; by simpl.
Qed.

Lemma moveCycle_steady (s : Game) i :
  wellFormed s -> steady s -> steady (moveCycle W s i).
Proof.
  intros Hwf [Hids Hcol Hcells Hmem Hvis Hhead Hspeed].
  destruct (cycles s !! i) as [c|] eqn:Hc;
    [|rewrite moveCycle_absent by done; by constructor].
  assert (In c (cycles s)) as Hin
    by (eapply list_elem_of_In, list_elem_of_lookup_2, Hc).
  pose proof (wf_positions _ Hwf c Hin) as Hposc.
  pose proof (id_in_roster _ c Hids Hin) as Hidc.
  pose proof (moveCycle_grows W s i Hwf) as Hgrow.
  assert (exists c', cycles (moveCycle W s i) !! i = Some c') as [c0 Hc0].
  { destruct (moveCycle_step W s i c Hc) as (c' & tg' & ps' & n' & -> & _).
    exists c'. simpl. apply list_lookup_insert_eq. eapply lookup_lt_Some, Hc. }
  destruct (moveCycle_colors s i c c0 Hc Hc0) as [Hcolor Hglow].
  revert Hgrow Hc0.
  destruct (moveCycle_step W s i c Hc)
    as (c' & tg' & ps' & n' & -> & Hi & Hdir & Hcase).
  simpl. intros Hgrow Hc0.
  rewrite list_lookup_insert_eq in Hc0 by (eapply lookup_lt_Some, Hc).
  injection Hc0 as ->.
  constructor; simpl.
  - rewrite (map_insert_same id _ _ c); done.
  - rewrite (map_insert_same _ _ _ c); [done|done|]. by rewrite Hcolor, Hglow.
  - destruct Hcase as [(_ & _ & _ & _ & -> & _)|(_ & _ & _ & _ & -> & _)];
      [done|]. rewrite Hposc. apply setCell_owned; [lia|done].
  - intros c1 H1. apply In_insert in H1 as [->|H1]; [|auto].
    destruct Hcase as [(_ & _ & _ & -> & _)|(_ & _ & _ & -> & _)]; [auto|].
    apply remember_length. auto.
  - intros c1 p H1 Hp. apply In_insert in H1 as [->|H1].
    + destruct Hcase as [(_ & _ & _ & Hm & -> & _)|(_ & _ & _ & Hm & Ht & _)].
      * rewrite Hm in Hp. eauto.
      * rewrite Hm in Hp. apply remember_In in Hp as [Hp| ->].
        -- eapply occupied_grows; [exact Hgrow|]. eauto.
        -- exists (id c). rewrite Ht, Hposc.
           split; [|lia].
           apply cellAt_setCell_eq; [apply (wf_shape _ Hwf)|done].
    + eapply occupied_grows; [exact Hgrow|]. eauto.
  - intros c1 H1 Ha Hne. apply In_insert in H1 as [->|H1]; [|auto].
    destruct Hcase as [(_ & Hd & _)|(_ & _ & Hp & Hm & _)]; [congruence|].
    rewrite Hm, Hp, Hdir.
    by rewrite (proj2 (remember_last (pathfindingMemory c) (position c) _)).
  - done.
Qed.

Lemma moveAll_steady l (s : Game) :
  wellFormed s -> steady s -> steady (fold_left (moveCycle W) l s).
Proof.
  revert s. induction l as [|i l IH]; intros s Hwf Hst; simpl; [done|].
  apply IH; [by apply moveCycle_wellFormed|by apply moveCycle_steady].
Qed.

Lemma reset_steady now (s : Game) : steady (reset W now s).
Proof.
  constructor; try reflexivity.
  - rewrite reset_trail. apply spawnTrail_owned.
  - intros c Hc. simpl in Hc.
    destruct Hc as [<-|[<-|[<-|[<-|[]]]]]; simpl; lia.
  - intros c p Hc Hp. simpl in Hc.
    destruct Hc as [<-|[<-|[<-|[<-|[]]]]]; destruct Hp.
  - intros c Hc _ Hne. simpl in Hc.
    destruct Hc as [<-|[<-|[<-|[<-|[]]]]]; by destruct Hne.
  - simpl. lia.
Qed.

Lemma update_steady t now (s : Game) :
  wellFormed s -> steady s -> steady (update W t now s).
Proof.
  intros Hwf Hst.
  assert (steady (tickFrame W s)) as Hst1 by (destruct Hst; by constructor).
  pose proof (tickFrame_wellFormed W s Hwf) as Hwf1.
  unfold update. destruct (state (tickFrame W s)).
  - destruct (_ <? _); [done|].
    destruct (_ <=? _)%nat.
    + destruct Hst1. by constructor.
    + destruct (moveAll_steady (aliveIndices (cycles (tickFrame W s)))
                  (tickFrame W s) Hwf1 Hst1).
      constructor; try done. simpl. lia.
  - destruct (_ <? _); [apply reset_steady|done].
Qed.

Lemma reachable_steady (s : Game) : reachable W s -> steady s.
Proof.
  induction 1 as [g now|s t now Hr IH|s now Hr IH].
  - apply reset_steady.
  - apply update_steady; [by apply (reachable_wellFormed W)|done].
  - apply reset_steady.
Qed.

End Steady.

(** X1.  Every state the game can reach has the same four cycles, in the
    same order: identifiers 1, 2, 3, 4 (so they are pairwise distinct and
    never 0, the value of an empty cell) and the four fixed colours. *)
Theorem roster_is_fixed {P} (W : World P) (s : TronGame P) :
  reachable W s ->
  map id (cycles s) = [1; 2; 3; 4]
  /\ map color (cycles s)
     = [ "#00ffff"; "#ff4757"; "#ffa502"; "#7bed9f" ]%string
  /\ map glowColor (cycles s) = map color (cycles s)
  /\ length (cycles s) = 4%nat.
Proof.
  intros Hr. destruct (reachable_steady W s Hr) as [Hids Hcol _ _ _ _ _].
  split; [done|].
  assert (map fst (map (fun c => (color c, glowColor c)) (cycles s))
          = map fst colors) as Hc by (by rewrite Hcol).
  assert (map snd (map (fun c => (color c, glowColor c)) (cycles s))
          = map snd colors) as Hg by (by rewrite Hcol).
  rewrite map_map in Hc, Hg. simpl in Hc, Hg.
  split; [exact Hc|].
  split; [etransitivity; [exact Hg|symmetry; exact Hc]|].
  by rewrite <- (length_map id), Hids.
Qed.

Lemma roster_is_fixed_witness :
  reachable ZeroDraws (stripeRun ZeroDraws 20)
  /\ map id (cycles (stripeRun ZeroDraws 20)) = [1; 2; 3; 4].
Proof.
  split; [apply stripeRun_reachable|].
  apply (roster_is_fixed ZeroDraws (stripeRun ZeroDraws 20)).
  apply stripeRun_reachable.
Defined.

(** X2.  In every reachable state the trail is a 7 x 52 matrix, and each
    of its cells holds 0 or the identifier (1 to 4) of one of the
    cycles. *)
Theorem trail_holds_cycle_ids {P} (W : World P) (s : TronGame P) p :
  reachable W s -> isValidPosition p = true ->
  length (trailGrid s) = 7%nat
  /\ Forall (fun row => length row = 52%nat) (trailGrid s)
  /\ exists v, cellAt (trailGrid s) p = Some v
               /\ (v = 0 \/ exists c, In c (cycles s) /\ id c = v).
Proof.
  intros Hr Hp.
  destruct (reachable_steady W s Hr) as [Hids _ Hcells _ _ _ _].
  destruct (wf_shape _ (reachable_wellFormed W s Hr)) as [Hl Hrows].
  split; [done|]. split; [done|].
  destruct (cellAt_shape (trailGrid s) p (conj Hl Hrows) Hp) as [v Hv].
  exists v. split; [done|].
  pose proof (ownedCells_cell _ _ _ Hcells Hv) as Hb.
  destruct (decide (v = 0)) as [->|Hne]; [by left|right].
  assert (In v (map id (cycles s))) as Hin
    by (rewrite Hids; simpl; lia).
  apply in_map_iff in Hin as (c & Hc & Hin). eauto.
Qed.

Lemma trail_holds_cycle_ids_witness :
  (reachable ZeroDraws (stripeRun ZeroDraws 20)
   /\ isValidPosition (mkPoint 25 3) = true)
  /\ length (trailGrid (stripeRun ZeroDraws 20)) = 7%nat.
Proof.
  split; [split; [apply stripeRun_reachable|reflexivity]|].
  apply (trail_holds_cycle_ids ZeroDraws (stripeRun ZeroDraws 20)
           (mkPoint 25 3)); [apply stripeRun_reachable|reflexivity].
Defined.

(** X3.  The memory of a cycle is a bounded queue: pushing a position
    onto a memory of at most 20 entries keeps the 20 most recent ones, the
    newest last, and in every reachable state every cycle remembers at
    most 20 positions. *)
Theorem memory_is_bounded {P} (W : World P) (s : TronGame P) c :
  reachable W s -> In c (cycles s) ->
  (length (pathfindingMemory c) <= 20)%nat
  /\ forall p,
       remember (pathfindingMemory c) p
       = drop (length (pathfindingMemory c) + 1 - 20)
           (pathfindingMemory c ++ [p]).
Proof.
  intros Hr Hc.
  pose proof (st_memory _ (reachable_steady W s Hr) c Hc) as Hl.
  split; [done|]. intros p. unfold remember.
  rewrite length_app. simpl.
  destruct (Nat.ltb_spec 20 (length (pathfindingMemory c) + 1)) as [Hlt|Hge].
  - replace (length (pathfindingMemory c) + 1 - 20)%nat with 1%nat by lia.
    by destruct (pathfindingMemory c ++ [p]).
  - by replace (length (pathfindingMemory c) + 1 - 20)%nat with 0%nat by lia.
Qed.

Lemma memory_is_bounded_witness :
  exists c,
    (reachable ZeroDraws (stripeRun ZeroDraws 40)
     /\ In c (cycles (stripeRun ZeroDraws 40)))
    /\ length (pathfindingMemory c) = 20%nat.
Proof.
  assert (exists c, cycles (stripeRun ZeroDraws 40) !! 0%nat = Some c
                    /\ length (pathfindingMemory c) = 20%nat)
    as (c & Hc & Hlen)
    by (rewrite stripeRun_agree; eexists; vm_compute; by split).
  assert (In c (cycles (stripeRun ZeroDraws 40))) as Hin
    by (eapply list_elem_of_In, list_elem_of_lookup_2, Hc).
  exists c. split; [split; [apply stripeRun_reachable|done]|].
  pose proof (memory_is_bounded ZeroDraws (stripeRun ZeroDraws 40) c
                (stripeRun_reachable _ _) Hin) as [Hle _].
  exact Hlen.
Defined.

(** X4.  Every position a cycle remembers is an occupied cell of the
    trail: the memory records cells the cycle has left, and those were
    written when it left them and are never cleared within a round. *)
Theorem remembered_cells_are_occupied {P} (W : World P) (s : TronGame P) c p :
  reachable W s -> In c (cycles s) -> In p (pathfindingMemory c) ->
  exists v, cellAt (trailGrid s) p = Some v /\ v <> 0.
Proof.
  intros Hr Hc Hp. apply (st_visited _ (reachable_steady W s Hr) c p Hc Hp).
Qed.

Lemma remembered_cells_are_occupied_witness :
  exists c p,
    (reachable ZeroDraws (stripeRun ZeroDraws 20)
     /\ In c (cycles (stripeRun ZeroDraws 20))
     /\ In p (pathfindingMemory c))
    /\ exists v, cellAt (trailGrid (stripeRun ZeroDraws 20)) p = Some v
                 /\ v <> 0.
Proof.
  assert (exists c p, cycles (stripeRun ZeroDraws 20) !! 0%nat = Some c
                      /\ pathfindingMemory c !! 0%nat = Some p)
    as (c & p & Hc & Hp)
    by (rewrite stripeRun_agree; do 2 eexists; vm_compute; by split).
  assert (In c (cycles (stripeRun ZeroDraws 20))) as Hin
    by (eapply list_elem_of_In, list_elem_of_lookup_2, Hc).
  assert (In p (pathfindingMemory c)) as Hpin
    by (eapply list_elem_of_In, list_elem_of_lookup_2, Hp).
  exists c, p. split; [split; [apply stripeRun_reachable|by split]|].
  apply (remembered_cells_are_occupied ZeroDraws (stripeRun ZeroDraws 20) c p
           (stripeRun_reachable _ _) Hin Hpin).
Defined.

(** X5.  An alive cycle that has moved at least once stands on the cell
    next to the one it remembered last, in the direction of its heading:
    the memory ends with the cell the cycle has just left. *)
Theorem head_follows_memory {P} (W : World P) (s : TronGame P) c :
  reachable W s -> In c (cycles s) -> alive c = true ->
  pathfindingMemory c <> [] ->
  position c
  = getNextPositionInDirection
      (List.last (pathfindingMemory c) (position c)) (direction c).
Proof.
  intros Hr Hc Ha Hm. by apply (st_head _ (reachable_steady W s Hr)).
Qed.

Lemma head_follows_memory_witness :
  exists c,
    (reachable ZeroDraws (stripeRun ZeroDraws 20)
     /\ In c (cycles (stripeRun ZeroDraws 20)) /\ alive c = true
     /\ pathfindingMemory c <> [])
    /\ position c
       = getNextPositionInDirection
           (List.last (pathfindingMemory c) (position c)) (direction c).
Proof.
  assert (exists c, cycles (stripeRun ZeroDraws 20) !! 0%nat = Some c
                    /\ alive c = true
                    /\ (0 <? length (pathfindingMemory c))%nat = true)
    as (c & Hc & Ha & Hm)
    by (rewrite stripeRun_agree; eexists; vm_compute; by repeat split).
  assert (In c (cycles (stripeRun ZeroDraws 20))) as Hin
    by (eapply list_elem_of_In, list_elem_of_lookup_2, Hc).
  assert (pathfindingMemory c <> []) as Hne
    by (intros H; rewrite H in Hm; discriminate Hm).
  exists c. split.
  { split; [apply stripeRun_reachable|].
    split; [exact Hin|]. split; [exact Ha|exact Hne]. }
  apply (head_follows_memory ZeroDraws (stripeRun ZeroDraws 20) c
           (stripeRun_reachable _ _) Hin Ha Hne).
Defined.

(* ================================================================== *)
(** ** Across a call of [update] *)
(* ================================================================== *)

Lemma alive_count_le (cs cs' : list LightCycle) :
  length cs = length cs' ->
  (forall i c c', cs !! i = Some c -> cs' !! i = Some c' ->
                  alive c' = true -> alive c = true) ->
  (length (List.filter alive cs') <= length (List.filter alive cs))%nat.
Proof.
  revert cs'. induction cs as [|c cs IH]; intros [|c' cs'] Hl Hp;
    simpl in *; try done.
  assert (length (List.filter alive cs') <= length (List.filter alive cs))%nat
    as Hle.
  { apply IH; [lia|]. intros i a a' Ha Ha'. apply (Hp (S i) a a' Ha Ha'). }
  pose proof (Hp 0%nat c c' eq_refl eq_refl) as H0.
  destruct (alive c') eqn:E'; [rewrite H0 by done|destruct (alive c)];
    simpl; lia.
Qed.

Lemma row_count_le (row row' : list Z) :
  Forall2 (fun a b => a <> 0 -> b <> 0) row row' ->
  (length (List.filter (fun cell => negb (cell =? 0)%Z) row)
   <= length (List.filter (fun cell => negb (cell =? 0)%Z) row'))%nat.
Proof.
  induction 1 as [|a b row row' Hab Hrest IH]; simpl; [done|].
  destruct (Z.eqb_spec a 0), (Z.eqb_spec b 0); simpl; lia.
Qed.

Lemma matrix_count_le (tg tg' : list (list Z)) :
  Forall2 (Forall2 (fun a b => a <> 0 -> b <> 0)) tg tg' ->
  occupiedCells tg <= occupiedCells tg'.
Proof.
  unfold occupiedCells. intros H. apply inj_le.
  induction H as [|row row' tg tg' Hrow Hrest IH]; simpl; [done|].
  rewrite !List.filter_app, !length_app.
  pose proof (row_count_le row row' Hrow). lia.
Qed.

Lemma grows_count tg tg' :
  trailShape tg -> trailShape tg' -> grows tg tg' ->
  occupiedCells tg <= occupiedCells tg'.
Proof.
  intros [Hl Hr] [Hl' Hr'] Hg. apply matrix_count_le.
  apply Forall2_same_length_lookup_2; [congruence|].
  intros r row row' Hrow Hrow'.
  pose proof (Forall_lookup_1 _ _ _ _ Hr Hrow) as Hlen.
  pose proof (Forall_lookup_1 _ _ _ _ Hr' Hrow') as Hlen'.
  simpl in Hlen, Hlen'.
  apply Forall2_same_length_lookup_2; [congruence|].
  intros c a b Ha Hb Hne.
  destruct (Hg (mkPoint (Z.of_nat c) (Z.of_nat r)) a) as (b' & Hb' & Hne');
    [|done|].
  - unfold cellAt. simpl.
    destruct (Z.ltb_spec (Z.of_nat r) 0); [lia|].
    destruct (Z.ltb_spec (Z.of_nat c) 0); [lia|]. simpl.
    by rewrite !Nat2Z.id, Hrow.
  - unfold cellAt in Hb'. simpl in Hb'.
    destruct (Z.ltb_spec (Z.of_nat r) 0); [lia|].
    destruct (Z.ltb_spec (Z.of_nat c) 0); [lia|]. simpl in Hb'.
    rewrite !Nat2Z.id, Hrow' in Hb'. congruence.
Qed.

Section Across.
Context {P : Type} (W : World P).

Local Abbreviation Game := (TronGame P).

Lemma update_playing_length t now (s : Game) :
  state s = PLAYING ->
  length (cycles (update W t now s)) = length (cycles s).
Proof.
  intros Hs.
  destruct (Z.ltb_spec (t - lastMoveTime s) (speed s)) as [Hw|Hw].
  { by rewrite update_playing_wait. }
  destruct (Nat.leb_spec (length (aliveCycles s)) 1) as [Hn|Hn].
  { by rewrite update_playing_restart. }
  rewrite update_playing_move by (done || lia). simpl.
  apply (moveAll_frame W (aliveIndices (cycles s)) (tickFrame W s)).
Qed.

Lemma update_playing_grows t now (s : Game) :
  wellFormed s -> state s = PLAYING ->
  grows (trailGrid s) (trailGrid (update W t now s)).
Proof.
  intros Hwf Hs.
  destruct (Z.ltb_spec (t - lastMoveTime s) (speed s)) as [Hw|Hw].
  { rewrite update_playing_wait by done. apply grows_refl. }
  destruct (Nat.leb_spec (length (aliveCycles s)) 1) as [Hn|Hn].
  { rewrite update_playing_restart by done. apply grows_refl. }
  rewrite update_playing_move by (done || lia). simpl.
  apply (moveAll_grows W (aliveIndices (cycles s)) (tickFrame W s)).
  by apply tickFrame_wellFormed.
Qed.

End Across.

(** X6.  The tick interval never goes below 80 ms.  A move step made
    [elapsed] ms into the round sets it to the larger of 80 and
    [200 - 20 * floor(elapsed / 10000)]: 200 during the first ten seconds,
    20 less for every further ten seconds, 80 from one minute on, never
    more than 200 once the round has begun, and always a multiple of
    20. *)
Theorem tick_interval_bounds {P} (W : World P) (s : TronGame P) t now :
  reachable W s ->
  80 <= speed s
  /\ (state s = PLAYING -> speed s <= t - lastMoveTime s ->
      (2 <= length (aliveCycles s))%nat ->
      let elapsed := t - gameStartTime s in
      let speed' := speed (update W t now s) in
      speed' = Z.max 80 (200 - 20 * (elapsed / 10000))
      /\ 80 <= speed'
      /\ (0 <= elapsed < 10000 -> speed' = 200)
      /\ (60000 <= elapsed -> speed' = 80)
      /\ (0 <= elapsed -> speed' <= 200)
      /\ speed' mod 20 = 0).
Proof.
  intros Hr. split; [apply (st_speed _ (reachable_steady W s Hr))|].
  intros Hs Ht Hn elapsed speed'. subst elapsed speed'.
  rewrite update_playing_move by done. simpl.
  pose proof (moveAll_frame W (aliveIndices (cycles s)) (tickFrame W s)) as Hf.
  simpl in Hf. destruct Hf as (_ & _ & _ & _ & _ & _ & _ & -> & _).
  set (e := t - gameStartTime s). change (1000 * 10) with 10000.
  split; [lia|]. split; [lia|]. split; [|split; [|split]].
  - intros He. rewrite Z.div_small by lia. lia.
  - intros He.
    assert (6 <= e / 10000) by (apply Z.div_le_lower_bound; lia). lia.
  - intros He. assert (0 <= e / 10000) by (apply Z.div_pos; lia). lia.
  - destruct (Z.max_spec 80 (200 - e / 10000 * 20)) as [[_ ->]|[_ ->]].
    + replace (200 - e / 10000 * 20) with ((10 - e / 10000) * 20) by lia.
      apply Z.mod_mul. lia.
    + reflexivity.
Qed.

Lemma tick_interval_bounds_witness :
  let s := stripeRun ZeroDraws 110 in
  (reachable ZeroDraws s /\ state s = PLAYING
   /\ speed s <= 22200 - lastMoveTime s
   /\ (2 <= length (aliveCycles s))%nat
   /\ 22200 - gameStartTime s = 22200)
  /\ 80 <= speed s
  /\ speed (update ZeroDraws 22200 22200 s) = 160.
Proof.
  cbv zeta.
  assert (state (stripeRun ZeroDraws 110) = PLAYING
    /\ speed (stripeRun ZeroDraws 110)
       <= 22200 - lastMoveTime (stripeRun ZeroDraws 110)
    /\ (2 <=? length (aliveCycles (stripeRun ZeroDraws 110)))%nat = true
    /\ 22200 - gameStartTime (stripeRun ZeroDraws 110) = 22200)
    as (H1 & H2 & H3 & H4).
  { rewrite stripeRun_agree. vm_compute. repeat split; congruence. }
  apply Nat.leb_le in H3.
  split.
  { exact (conj (stripeRun_reachable _ _) (conj H1 (conj H2 (conj H3 H4)))). }
  destruct (tick_interval_bounds ZeroDraws (stripeRun ZeroDraws 110) 22200
              22200 (stripeRun_reachable _ _)) as [Hmin Hstep].
  split; [exact Hmin|].
  destruct (Hstep H1 H2 H3) as [Hspeed _].
  rewrite Hspeed, H4. reflexivity.
Defined.

(** X7.  A dead cycle is never touched again within the round: across a
    call of [update] made while [PLAYING] it is exactly as before.  So no
    cycle comes back to life, and the number of alive cycles never goes
    up. *)
Theorem dead_cycles_are_frozen {P} (W : World P) (s : TronGame P) t now :
  reachable W s -> state s = PLAYING ->
  (forall i c, cycles s !! i = Some c -> alive c = false ->
               cycles (update W t now s) !! i = Some c)
  /\ (length (aliveCycles (update W t now s))
      <= length (aliveCycles s))%nat.
Proof.
  intros Hr Hs. pose proof (reachable_wellFormed W s Hr) as Hwf.
  split.
  - intros i c Hc Hdead.
    destruct (update_playing_cycle W t now s i c Hwf Hs Hc)
      as (c' & Hl & _ & [->|[(Ha & _)|(Ha & _)]]); [done|congruence..].
  - unfold aliveCycles. apply alive_count_le.
    + symmetry. by apply update_playing_length.
    + intros i c c' Hc Hc' Ha'.
      destruct (update_playing_cycle W t now s i c Hwf Hs Hc)
        as (c0 & Hl & _ & Hcase).
      assert (c0 = c') as -> by congruence.
      destruct Hcase as [->|[(Ha & _)|(Ha & _)]]; done.
Qed.

Lemma dead_cycles_are_frozen_witness :
  (reachable ZeroDraws (stripeRun ZeroDraws 110)
   /\ state (stripeRun ZeroDraws 110) = PLAYING)
  /\ (length (aliveCycles (update ZeroDraws 22200 22200
                             (stripeRun ZeroDraws 110)))
      <= length (aliveCycles (stripeRun ZeroDraws 110)))%nat.
Proof.
  assert (state (stripeRun ZeroDraws 110) = PLAYING) as Hs
    by (rewrite stripeRun_agree; vm_compute; reflexivity).
  split; [split; [apply stripeRun_reachable|exact Hs]|].
  destruct (dead_cycles_are_frozen ZeroDraws (stripeRun ZeroDraws 110)
              22200 22200 (stripeRun_reachable _ _) Hs) as [_ H].
  exact H.
Defined.

(** X8.  Within a round the number of occupied cells of the trail never
    goes down: across a call of [update] made while [PLAYING] every
    occupied cell stays occupied, so the count can only grow. *)
Theorem trail_never_shrinks {P} (W : World P) (s : TronGame P) t now :
  reachable W s -> state s = PLAYING ->
  occupiedCells (trailGrid s) <= occupiedCells (trailGrid (update W t now s)).
Proof.
  intros Hr Hs. pose proof (reachable_wellFormed W s Hr) as Hwf.
  apply grows_count.
  - apply (wf_shape _ Hwf).
  - apply wf_shape, update_wellFormed, Hwf.
  - by apply update_playing_grows.
Qed.

Lemma trail_never_shrinks_witness :
  (reachable ZeroDraws (stripeRun ZeroDraws 110)
   /\ state (stripeRun ZeroDraws 110) = PLAYING)
  /\ occupiedCells (trailGrid (stripeRun ZeroDraws 110))
     <= occupiedCells (trailGrid (update ZeroDraws 22200 22200
                                    (stripeRun ZeroDraws 110))).
Proof.
  assert (state (stripeRun ZeroDraws 110) = PLAYING) as Hs
    by (rewrite stripeRun_agree; vm_compute; reflexivity).
  split; [split; [apply stripeRun_reachable|exact Hs]|].
  exact (trail_never_shrinks ZeroDraws (stripeRun ZeroDraws 110)
           22200 22200 (stripeRun_reachable _ _) Hs).
Defined.

(** X9.  The lifecycle has exactly two transitions.  While [PLAYING], a
    call of [update] leaves the state [RESTARTING] exactly when the tick is
    permitted and at most one cycle is alive as it begins; while
    [RESTARTING], it leaves the state [PLAYING] exactly when more than
    [restartDelay] ms have passed since the restart was initiated. *)
Theorem lifecycle_transitions {P} (W : World P) (s : TronGame P) t now :
  (state s = PLAYING ->
   (state (update W t now s) = RESTARTING
    <-> speed s <= t - lastMoveTime s
        /\ (length (aliveCycles s) <= 1)%nat))
  /\ (state s = RESTARTING ->
      (state (update W t now s) = PLAYING
       <-> restartDelay s < t - restartTime s)).
Proof.
  split; intros Hs.
  - destruct (Z.ltb_spec (t - lastMoveTime s) (speed s)) as [Hw|Hw].
    { rewrite update_playing_wait by done. simpl. rewrite Hs.
      split; [discriminate|lia]. }
    destruct (Nat.leb_spec (length (aliveCycles s)) 1) as [Hn|Hn].
    { rewrite update_playing_restart by done. simpl. by split. }
    rewrite update_playing_move by (done || lia). simpl.
    pose proof (moveAll_frame W (aliveIndices (cycles s)) (tickFrame W s))
      as Hf.
    simpl in Hf. destruct Hf as (_ & -> & _). rewrite Hs.
    split; [discriminate|lia].
  - destruct (Z.ltb_spec (restartDelay s) (t - restartTime s)) as [Hd|Hd].
    + rewrite update_restarting_reset by done. by split.
    + rewrite update_restarting_wait by done. simpl. rewrite Hs.
      split; [discriminate|lia].
Qed.

(** X10.  The decision engine never makes a fatal move when a safe one
    exists: in the loop body an alive cycle is marked dead exactly when it
    is boxed in, that is when each of the three headings other than the
    reverse leads into a blocked cell at that moment. *)
Theorem crash_only_when_boxed_in {P} (W : World P) (s : TronGame P) i c :
  cycles s !! i = Some c -> alive c = true ->
  exists c',
    cycles (moveCycle W s i) !! i = Some c'
    /\ (alive c' = false <-> boxedIn (trailGrid s) c).
Proof.
  intros Hc Ha.
  destruct (moveCycle_step W s i c Hc)
    as (c' & tg' & ps' & n' & -> & _ & Hdir & Hcase).
  exists c'. simpl.
  split; [apply list_lookup_insert_eq; eapply lookup_lt_Some, Hc|].
  rewrite boxedIn_no_candidate.
  destruct (getSafeDirections (trailGrid s) c) as [|d0 l] eqn:E.
  - split; [done|]. intros _.
    rewrite makeAIDecision_boxed in Hcase by done. simpl in Hcase.
    destruct Hcase as [(_ & Hd & _)|(Hfree & _)]; [done|].
    apply boxedIn_no_candidate in E.
    rewrite E in Hfree; [done|].
    intros H. symmetry in H. by apply opposite_differs in H.
  - split; [|done]. intros Hdead.
    destruct (makeAIDecision_candidate W (grid s) (trailGrid s) (rng s) c)
      as [Hin _]; [congruence|].
    apply getSafeDirections_In in Hin as [_ Hfree].
    destruct Hcase as [(Hb & _)|(_ & Ha' & _)]; congruence.
Qed.

Lemma crash_only_when_boxed_in_witness :
  exists c,
    (cycles (stripeRun ZeroDraws 20) !! 0%nat = Some c /\ alive c = true)
    /\ exists c',
         cycles (moveCycle ZeroDraws (stripeRun ZeroDraws 20) 0) !! 0%nat
         = Some c'
         /\ (alive c' = false
             <-> boxedIn (trailGrid (stripeRun ZeroDraws 20)) c).
Proof.
  assert (exists c, cycles (stripeRun ZeroDraws 20) !! 0%nat = Some c
                    /\ alive c = true) as (c & Hc & Ha)
    by (rewrite stripeRun_agree; eexists; vm_compute; by split).
  exists c. split; [by split|].
  exact (crash_only_when_boxed_in ZeroDraws (stripeRun ZeroDraws 20) 0%nat c
           Hc Ha).
Defined.

(* ================================================================== *)
(** ** Ranges of the features; the sort *)
(* ================================================================== *)

Lemma leadingRun_le {A} (f : A -> bool) (l : list A) :
  (leadingRun f l <= length l)%nat.
Proof. induction l as [|a l IH]; simpl; [lia|]. destruct (f a); lia. Qed.

Lemma cellsAhead_length k p d : length (cellsAhead k p d) = k.
Proof. revert p. induction k as [|k IH]; intros p; simpl; [done|]. by rewrite IH. Qed.

Lemma safetyLoop_range tg n d :
  0 <= safetyLoop 10 tg n d 0 <= 10
  /\ (checkCollision tg n = false -> 1 <= safetyLoop 10 tg n d 0).
Proof.
  rewrite safetyLoop_run.
  pose proof (leadingRun_le (unblocked tg) (cellsAhead 10 n d)) as Hle.
  rewrite cellsAhead_length in Hle.
  split; [lia|]. intros Hfree.
  change (cellsAhead 10 n d)
    with (n :: cellsAhead 9 (getNextPositionInDirection n d) d).
  cbn [leadingRun]. unfold unblocked at 1. rewrite Hfree. cbn [negb]. lia.
Qed.

Lemma filter_skip_length {A} (f : A -> bool) (l1 l2 : list A) a :
  f a = false ->
  (length (List.filter f (l1 ++ a :: l2)) <= length l1 + length l2)%nat.
Proof.
  intros Hf. rewrite List.filter_app, length_app. simpl. rewrite Hf.
  pose proof (filter_length_le f l1). pose proof (filter_length_le f l2). lia.
Qed.

Lemma specOpenSpace_range tg n : 0 <= specOpenSpace tg n <= 24.
Proof.
  unfold specOpenSpace. split; [lia|].
  assert (exists l1 l2,
             square n 2 = l1 ++ mkPoint (x n + 0) (y n + 0) :: l2
             /\ length l1 = 12%nat /\ length l2 = 12%nat)
    as (l1 & l2 & -> & Hl1 & Hl2).
  { exists (take 12 (square n 2)), (drop 13 (square n 2)).
    split; [reflexivity|]. split; reflexivity. }
  pose proof (filter_skip_length
                (fun q => negb (Point_eqb q n) && unblocked tg q) l1 l2
                (mkPoint (x n + 0) (y n + 0))) as Hle.
  rewrite Hl1, Hl2 in Hle.
  assert (12 + 12 = 24)%nat as Hsum by reflexivity.
  rewrite Hsum in Hle.
  apply (inj_le _ 24), Hle.
  unfold Point_eqb. cbn [x y]. rewrite !Z.add_0_r, !Z.eqb_refl. reflexivity.
Qed.

Lemma countFutureOptions_range tg n d : 0 <= countFutureOptions tg n d <= 3.
Proof.
  unfold countFutureOptions. split; [lia|].
  destruct d; simpl;
    repeat match goal with
           | |- context [checkCollision ?a ?b] => destruct (checkCollision a b)
           end; simpl; lia.
Qed.

Lemma insertEvaluation_scored k e l :
  scored k (insertEvaluation e l) = scored k (e :: l).
Proof.
  unfold scored. induction l as [|e' l IH]; simpl; [done|].
  destruct (Z.leb_spec (snd e') (snd e)) as [Hle|Hlt]; [done|].
  simpl. rewrite IH. simpl.
  destruct (Z.eqb_spec (snd e') k), (Z.eqb_spec (snd e) k); try done. lia.
Qed.

(** The ranges of the features and of the score of a candidate. *)
Lemma candidate_features g tg cycle d :
  In d (getSafeDirections tg cycle) ->
  let f := extractFeatures g tg cycle d in
  1 <= safetyDistance f <= 10
  /\ 0 <= openSpace f <= 24
  /\ 0 <= edgeDistance f <= 3
  /\ 0 <= pathDiversity f <= 10
  /\ 0 <= continuity f <= 1
  /\ 0 <= exploration f <= 1
  /\ avoidance f = 0
  /\ 0 <= futureOptions f <= 3
  /\ 15 <= neuralEvaluateDirection g tg cycle d <= 411.
Proof.
  intros Hd f. apply getSafeDirections_In in Hd as [_ Hfree].
  set (n := getNextPositionInDirection (position cycle) d) in *.
  pose proof Hfree as Hvalid.
  apply checkCollision_false in Hvalid as [Hvalid _].
  apply isValidPosition_true in Hvalid.
  assert (1 <= safetyDistance f <= 10) as H1.
  { subst f. unfold extractFeatures. cbn [safetyDistance]. fold n.
    destruct (safetyLoop_range tg n d) as [Hr Hone].
    specialize (Hone Hfree). lia. }
  assert (0 <= openSpace f <= 24) as H2.
  { subst f. unfold extractFeatures. cbn [openSpace]. fold n.
    rewrite countOpenSpaceAround_square. apply specOpenSpace_range. }
  assert (0 <= edgeDistance f <= 3) as H3.
  { subst f. unfold extractFeatures. cbn [edgeDistance]. fold n. lia. }
  assert (0 <= pathDiversity f <= 10) as H4.
  { subst f. unfold extractFeatures. cbn [pathDiversity]. lia. }
  assert (0 <= continuity f <= 1) as H5.
  { subst f. unfold extractFeatures. cbn [continuity].
    destruct (Direction_eqb d (direction cycle)); lia. }
  assert (0 <= exploration f <= 1) as H6.
  { subst f. unfold extractFeatures. cbn [exploration].
    destruct (cellAt g _) as [v|]; [destruct (v <=? 1)|]; lia. }
  assert (avoidance f = 0) as H7.
  { subst f. unfold extractFeatures. cbn [avoidance]. fold n.
    by rewrite Hfree. }
  assert (0 <= futureOptions f <= 3) as H8.
  { subst f. unfold extractFeatures. cbn [futureOptions].
    apply countFutureOptions_range. }
  repeat (split; [assumption|]).
  unfold neuralEvaluateDirection. fold f. lia.
Qed.

(** X11.  For a candidate heading the features lie in fixed ranges: at
    least 1 and at most 10 free cells ahead, at most 24 open cells, a
    border distance between 0 and 3, a path diversity between 0 and 10, at
    most 3 onward options, and an avoidance penalty of 0 (the next cell of
    a candidate is not blocked).  The score of a candidate is therefore
    between 15 and 411. *)
Theorem candidate_score_range g tg cycle d :
  In d (getSafeDirections tg cycle) ->
  let f := extractFeatures g tg cycle d in
  1 <= safetyDistance f <= 10
  /\ 0 <= openSpace f <= 24
  /\ 0 <= edgeDistance f <= 3
  /\ 0 <= pathDiversity f <= 10
  /\ 0 <= continuity f <= 1
  /\ 0 <= exploration f <= 1
  /\ avoidance f = 0
  /\ 0 <= futureOptions f <= 3
  /\ 15 <= neuralEvaluateDirection g tg cycle d <= 411.
Proof.
  intros Hd f. subst f.
  destruct (candidate_features g tg cycle d Hd)
    as (H1 & H2 & H3 & H4 & H5 & H6 & H7 & H8 & H9).
  repeat (split; [assumption|]). exact H9.
Qed.

Lemma candidate_score_range_witness :
  In RIGHT (getSafeDirections spawnTrail spawnedCycle)
  /\ 15 <= neuralEvaluateDirection stripeGrid spawnTrail spawnedCycle RIGHT
     <= 411.
Proof.
  assert (In RIGHT (getSafeDirections spawnTrail spawnedCycle)) as Hin
    by (vm_compute; tauto).
  split; [exact Hin|].
  apply (candidate_score_range stripeGrid spawnTrail spawnedCycle RIGHT Hin).
Defined.

(** X12.  [evaluations.sort((a, b) => b.score - a.score)] as modelled is
    a stable sort by decreasing score: the result is a permutation of the
    array, scores never increase along it, and evaluations of equal score
    keep the order they had (so ties go to the heading that comes first in
    UP, DOWN, LEFT, RIGHT). *)
Theorem sortEvaluations_is_stable_sort (l : list Evaluation) :
  Permutation (sortEvaluations l) l
  /\ descending (sortEvaluations l)
  /\ forall k, scored k (sortEvaluations l) = scored k l.
Proof.
  split; [apply sortEvaluations_perm|].
  split; [apply sortEvaluations_descending|].
  intros k. induction l as [|e l IH]; simpl; [done|].
  rewrite insertEvaluation_scored. unfold scored in *. simpl.
  by rewrite IH.
Qed.

(* ================================================================== *)
(** ** Drawing *)
(* ================================================================== *)

Lemma cellRect_inside config p :
  isValidPosition p = true -> 0 <= cellSize config -> 0 <= cellGap config ->
  insidePadding config (cellRect config p).
Proof.
  intros Hv Hs Hg. apply isValidPosition_true in Hv.
  unfold insidePadding, cellRect, cellLeft, cellTop, calculateCanvasDimensions.
  cbn [fst snd]. nia.
Qed.

Lemma insidePadding_insideCanvas config r :
  0 <= padding config -> insidePadding config r -> insideCanvas config r.
Proof.
  destruct r as [[[l t] w] h]. unfold insidePadding, insideCanvas. lia.
Qed.

Lemma allCells_valid p : In p allCells -> isValidPosition p = true.
Proof.
  unfold allCells. intros H. apply in_flat_map in H as (r & Hr & Hp).
  apply in_map_iff in Hp as (c & <- & Hc).
  apply list_elem_of_In, elem_of_seqZ in Hr, Hc.
  apply isValidPosition_true. simpl. lia.
Qed.

Lemma find_owner (cs : list LightCycle) v :
  map id cs = [1; 2; 3; 4] ->
  map (fun c => (color c, glowColor c)) cs = colors -> 1 <= v <= 4 ->
  exists c, List.find (fun c => id c =? v) cs = Some c
            /\ id c = v /\ color c = cycleColor v.
Proof.
  intros Hids Hcol Hv.
  destruct cs as [|c1 [|c2 [|c3 [|c4 [|c5 cs]]]]]; try discriminate Hids.
  injection Hids as H1 H2 H3 H4. injection Hcol as K1 _ K2 _ K3 _ K4 _.
  simpl. rewrite H1, H2, H3, H4.
  assert (v = 1 \/ v = 2 \/ v = 3 \/ v = 4) as [-> | [-> | [-> | ->]]] by lia;
    simpl; eauto.
Qed.

Lemma drawTrailCell_shape config (cs : list LightCycle) tg p :
  trailShape tg -> ownedCells tg -> isValidPosition p = true ->
  map id cs = [1; 2; 3; 4] ->
  map (fun c => (color c, glowColor c)) cs = colors ->
  exists ops,
    drawTrailCell config cs tg p = Some ops
    /\ forall stack style rest,
         fills stack style (ops ++ rest)
         = (if checkCollision tg p
            then [(cycleColor (trailValue tg p), cellRect config p)]
            else [])
           ++ fills stack style rest.
Proof.
  intros Hshape Hown Hv Hids Hcol.
  destruct (cellAt_shape tg p Hshape Hv) as [v Hcell].
  pose proof (ownedCells_cell tg p v Hown Hcell) as Hrange.
  unfold checkCollision, trailValue. rewrite Hv, Hcell. simpl.
  unfold cellAt in Hcell. apply isValidPosition_true in Hv.
  destruct (Z.ltb_spec (y p) 0); [lia|].
  destruct (Z.ltb_spec (x p) 0); [lia|]. simpl in Hcell.
  unfold drawTrailCell.
  destruct (tg !! Z.to_nat (y p)) as [row|]; [|done].
  rewrite Hcell.
  destruct (Z.eqb_spec v 0) as [->|Hne]; simpl.
  - eexists. split; [reflexivity|]. done.
  - destruct (Z.ltb_spec 0 v); [|lia].
    destruct (find_owner cs v Hids Hcol) as (c & -> & _ & Hc); [lia|].
    eexists. split; [reflexivity|]. intros stack style rest. simpl.
    by rewrite Hc.
Qed.

Lemma drawTrails_cells config (cs : list LightCycle) tg cells :
  trailShape tg -> ownedCells tg ->
  map id cs = [1; 2; 3; 4] ->
  map (fun c => (color c, glowColor c)) cs = colors ->
  Forall (fun p => isValidPosition p = true) cells ->
  exists ops,
    inOrder (map (drawTrailCell config cs tg) cells) = Some ops
    /\ forall stack style,
         fills stack style ops
         = map (fun p => (cycleColor (trailValue tg p), cellRect config p))
             (List.filter (checkCollision tg) cells).
Proof.
  intros Hshape Hown Hids Hcol.
  induction 1 as [|p cells Hp Hall (rest & Hrest & Hfills)]; simpl.
  - exists []. by split.
  - destruct (drawTrailCell_shape config cs tg p Hshape Hown Hp Hids Hcol)
      as (ops & -> & Hops).
    rewrite Hrest. exists (ops ++ rest). split; [done|].
    intros stack style. rewrite Hops, Hfills.
    by destruct (checkCollision tg p).
Qed.

(** X15.  [getContributionColor] always answers with one of the five
    colours: levels 0 to 4 map to their own colour, every level above 4 is
    clamped to the brightest one, and a negative level (an index that is
    [undefined]) falls back to the colour of no activity. *)
Theorem getContributionColor_clamps level :
  In (getContributionColor level) contributionColors
  /\ (0 <= level <= 4 ->
      getContributionColor level
      = nth (Z.to_nat level) contributionColors ""%string)
  /\ (4 <= level -> getContributionColor level = "#39d353"%string)
  /\ (level < 0 -> getContributionColor level = "#161b22"%string).
Proof.
  unfold getContributionColor.
  destruct (Z.ltb_spec (Z.min level 4) 0) as [Hneg|Hpos].
  - split; [by left|]. split; [lia|]. split; [lia|done].
  - assert (Z.min level 4 = 0 \/ Z.min level 4 = 1 \/ Z.min level 4 = 2
            \/ Z.min level 4 = 3 \/ Z.min level 4 = 4)
      as Hcases by lia.
    split; [|split; [|split]].
    + destruct Hcases as [-> | [-> | [-> | [-> | ->]]]]; simpl; tauto.
    + intros Hl. by rewrite Z.min_l by lia.
    + intros Hl. by rewrite Z.min_r by lia.
    + lia.
Qed.



(** X17.  In every reachable state [drawTrails] runs to the end and
    paints exactly the occupied cells of the trail, row by row, each over
    its own cell rectangle and in the colour of the cycle whose identifier
    the cell holds; empty cells are not painted.  When the cell size,
    the gap and the padding are not negative, every rectangle painted lies
    on the canvas and keeps clear of its padding. *)
Theorem drawTrails_paints_the_trail {P} (W : World P) (s : TronGame P)
    config style :
  reachable W s ->
  exists ops,
    drawTrails s config = Some ops
    /\ fills [] style ops
       = map (fun p => (cycleColor (trailValue (trailGrid s) p),
                        cellRect config p))
           (List.filter (checkCollision (trailGrid s)) allCells)
    /\ (0 <= cellSize config -> 0 <= cellGap config ->
        0 <= padding config ->
        forall c r, In (c, r) (fills [] style ops) ->
                    insidePadding config r /\ insideCanvas config r).
Proof.
  intros Hr.
  destruct (reachable_steady W s Hr) as [Hids Hcol Hcells _ _ _ _].
  pose proof (wf_shape _ (reachable_wellFormed W s Hr)) as Hshape.
  destruct (drawTrails_cells config (cycles s) (trailGrid s) allCells
              Hshape Hcells Hids Hcol) as (ops & Hops & Hfills).
  { apply List.Forall_forall. apply allCells_valid. }
  exists ops. split; [exact Hops|]. split; [apply Hfills|].
  intros Hs Hg Hpad c r Hin. rewrite Hfills in Hin.
  apply in_map_iff in Hin as (p & [= _ <-] & Hp).
  apply filter_In in Hp as [Hp _].
  assert (insidePadding config (cellRect config p)) as Hin
    by (apply cellRect_inside; [by apply allCells_valid|done|done]).
  split; [exact Hin|by apply insidePadding_insideCanvas].
Qed.

Lemma drawTrails_paints_the_trail_witness :
  reachable ZeroDraws (stripeRun ZeroDraws 20)
  /\ exists ops,
       drawTrails (stripeRun ZeroDraws 20) (mkConfig 12 2 20) = Some ops
       /\ length (fills [] "" ops) = 80%nat.
Proof.
  split; [apply stripeRun_reachable|].
  destruct (drawTrails_paints_the_trail ZeroDraws (stripeRun ZeroDraws 20)
              (mkConfig 12 2 20) "" (stripeRun_reachable _ _))
    as (ops & Hops & Hfills & _).
  exists ops. split; [exact Hops|].
  rewrite Hfills, length_map, stripeRun_agree. vm_compute. reflexivity.
Defined.

(* ================================================================== *)
(** ** Headings *)
(* ================================================================== *)

(** X18.  Reversing twice gives the heading back and never the heading
    itself; a step moves to a cell at Chebyshev distance 1, and a step
    followed by a step in the reverse heading returns to the start. *)
Theorem step_and_reverse (p : Point) (d : Direction) :
  getOppositeDirection (getOppositeDirection d) = d
  /\ getOppositeDirection d <> d
  /\ chebyshev (getNextPositionInDirection p d) p = 1
  /\ getNextPositionInDirection (getNextPositionInDirection p d)
       (getOppositeDirection d) = p.
Proof.
  split; [by destruct d|]. split; [by destruct d|].
  split.
  - unfold chebyshev. destruct d; simpl; lia.
  - apply Point_ext; destruct d; simpl; lia.
Qed.

(** X19.  The cell right behind an alive cycle that has moved at least
    once is blocked: it is the cell the cycle has just left, which it wrote
    on leaving.  Excluding the reverse heading therefore never discards a
    safe move of such a cycle. *)
Theorem cell_behind_is_blocked {P} (W : World P) (s : TronGame P) c :
  reachable W s -> In c (cycles s) -> alive c = true ->
  pathfindingMemory c <> [] ->
  checkCollision (trailGrid s)
    (getNextPositionInDirection (position c)
       (getOppositeDirection (direction c))) = true.
Proof.
  intros Hr Hc Ha Hm.
  pose proof (reachable_steady W s Hr) as Hst.
  pose proof (st_head _ Hst c Hc Ha Hm) as Hpos.
  set (q := List.last (pathfindingMemory c) (position c)) in *.
  assert (In q (pathfindingMemory c)) as Hq.
  { subst q. destruct (exists_last Hm) as (m & p & ->).
    rewrite last_last. apply in_or_app. right. by left. }
  destruct (st_visited _ Hst c q Hc Hq) as (v & Hv & Hne).
  rewrite Hpos.
  assert (getNextPositionInDirection
            (getNextPositionInDirection q (direction c))
            (getOppositeDirection (direction c)) = q) as ->.
  { apply Point_ext; destruct (direction c); simpl; lia. }
  unfold checkCollision. rewrite Hv.
  destruct (isValidPosition q); simpl; [|done].
  by destruct (Z.eqb_spec v 0).
Qed.

Lemma cell_behind_is_blocked_witness :
  exists c,
    (reachable ZeroDraws (stripeRun ZeroDraws 20)
     /\ In c (cycles (stripeRun ZeroDraws 20)) /\ alive c = true
     /\ pathfindingMemory c <> [])
    /\ checkCollision (trailGrid (stripeRun ZeroDraws 20))
         (getNextPositionInDirection (position c)
            (getOppositeDirection (direction c))) = true.
Proof.
  assert (exists c, cycles (stripeRun ZeroDraws 20) !! 0%nat = Some c
                    /\ alive c = true
                    /\ (0 <? length (pathfindingMemory c))%nat = true)
    as (c & Hc & Ha & Hm)
    by (rewrite stripeRun_agree; eexists; vm_compute; by repeat split).
  assert (In c (cycles (stripeRun ZeroDraws 20))) as Hin
    by (eapply list_elem_of_In, list_elem_of_lookup_2, Hc).
  assert (pathfindingMemory c <> []) as Hne
    by (intros H; rewrite H in Hm; discriminate Hm).
  exists c. split.
  { split; [apply stripeRun_reachable|].
    split; [exact Hin|]. split; [exact Ha|exact Hne]. }
  exact (cell_behind_is_blocked ZeroDraws (stripeRun ZeroDraws 20) c
           (stripeRun_reachable _ _) Hin Ha Hne).
Defined.

(* ================================================================== *)
(** ** Progress, restart, and the share of the best candidate *)
(* ================================================================== *)

(** X20.  No cycle ever stalls: in a move step every cycle that is alive
    when the step begins either is marked dead where it stands or moves to
    a different, adjacent cell. *)
Theorem alive_cycles_never_stall {P} (W : World P) (s : TronGame P)
    t now i c :
  reachable W s -> state s = PLAYING -> speed s <= t - lastMoveTime s ->
  (2 <= length (aliveCycles s))%nat ->
  cycles s !! i = Some c -> alive c = true ->
  exists c',
    cycles (update W t now s) !! i = Some c'
    /\ ((alive c' = false /\ position c' = position c)
        \/ (alive c' = true /\ position c' <> position c
            /\ chebyshev (position c') (position c) = 1)).
Proof.
  intros Hr Hs Ht Hn Hc Ha.
  pose proof (reachable_wellFormed W s Hr) as Hwf.
  rewrite update_playing_move by done. simpl.
  destruct (moveAll_cycle W (aliveIndices (cycles s)) (tickFrame W s) i c
              (tickFrame_wellFormed W s Hwf) (aliveIndices_NoDup _) Hc)
    as (c' & Hl & _ & Hcase).
  exists c'. split; [done|].
  destruct Hcase as [[Hn' _]|[(_ & Ha' & Hp)|(_ & Ha' & Hp & _)]].
  - destruct Hn'. apply aliveIndices_In. eauto.
  - by left.
  - right. split; [congruence|]. rewrite Hp.
    unfold chebyshev.
    split; [|destruct (direction c'); simpl; lia].
    intros H. apply (f_equal x) in H as Hx. apply (f_equal y) in H as Hy.
    destruct (direction c'); simpl in Hx, Hy; lia.
Qed.

Lemma alive_cycles_never_stall_witness :
  exists c,
    (reachable ZeroDraws (stripeRun ZeroDraws 110)
     /\ state (stripeRun ZeroDraws 110) = PLAYING
     /\ speed (stripeRun ZeroDraws 110)
        <= 22200 - lastMoveTime (stripeRun ZeroDraws 110)
     /\ (2 <= length (aliveCycles (stripeRun ZeroDraws 110)))%nat
     /\ cycles (stripeRun ZeroDraws 110) !! 0%nat = Some c
     /\ alive c = true)
    /\ exists c',
         cycles (update ZeroDraws 22200 22200 (stripeRun ZeroDraws 110))
           !! 0%nat = Some c'
         /\ ((alive c' = false /\ position c' = position c)
             \/ (alive c' = true /\ position c' <> position c
                 /\ chebyshev (position c') (position c) = 1)).
Proof.
  assert (exists c,
    state (stripeRun ZeroDraws 110) = PLAYING
    /\ speed (stripeRun ZeroDraws 110)
       <= 22200 - lastMoveTime (stripeRun ZeroDraws 110)
    /\ (2 <=? length (aliveCycles (stripeRun ZeroDraws 110)))%nat = true
    /\ cycles (stripeRun ZeroDraws 110) !! 0%nat = Some c
    /\ alive c = true) as (c & H1 & H2 & H3 & H4 & H5).
  { rewrite stripeRun_agree. eexists. vm_compute.
    repeat split; congruence. }
  apply Nat.leb_le in H3.
  exists c. split.
  { split; [apply stripeRun_reachable|].
    split; [exact H1|]. split; [exact H2|]. split; [exact H3|].
    split; [exact H4|exact H5]. }
  exact (alive_cycles_never_stall ZeroDraws (stripeRun ZeroDraws 110)
           22200 22200 0%nat c (stripeRun_reachable _ _) H1 H2 H3 H4 H5).
Defined.

(** X21.  The restart that ends the delay is the manual one: a call of
    [update] that finds the delay over leaves the game exactly as
    [forceRestart] would have, whatever the particles and the frame
    counter were. *)
Theorem automatic_restart_is_forceRestart {P} (W : World P)
    (s : TronGame P) t now :
  state s = RESTARTING -> restartDelay s < t - restartTime s ->
  update W t now s = forceRestart W now s.
Proof.
  intros Hs Ht. by rewrite update_restarting_reset.
Qed.

Lemma automatic_restart_is_forceRestart_witness :
  (state (stripeRun ZeroDraws 117) = RESTARTING
   /\ restartDelay (stripeRun ZeroDraws 117)
      < 23600 - restartTime (stripeRun ZeroDraws 117))
  /\ update ZeroDraws 23600 23600 (stripeRun ZeroDraws 117)
     = forceRestart ZeroDraws 23600 (stripeRun ZeroDraws 117).
Proof.
  assert (state (stripeRun ZeroDraws 117) = RESTARTING
          /\ restartDelay (stripeRun ZeroDraws 117)
             < 23600 - restartTime (stripeRun ZeroDraws 117)) as [H1 H2]
    by (rewrite stripeRun_agree; vm_compute; split; reflexivity).
  split; [split; [exact H1|exact H2]|].
  exact (automatic_restart_is_forceRestart ZeroDraws
           (stripeRun ZeroDraws 117) 23600 23600 H1 H2).
Defined.

(* ================================================================== *)
(** ** The softmax in double arithmetic *)
(* ================================================================== *)

(** From a score of 355 on, [score / 0.5] is 710 or more. *)
Lemma overflow_scores k :
  355 <= k <= 411 ->
  SFleb (doubleOfZ 710) (SFdiv 53 1024 (doubleOfZ k) half) = true.
Proof.
  intros Hk.
  assert (forallb (fun k => SFleb (doubleOfZ 710)
                              (SFdiv 53 1024 (doubleOfZ k) half))
            (seqZ 355 57) = true) as Hall by (vm_compute; reflexivity).
  rewrite forallb_forall in Hall. apply Hall.
  apply list_elem_of_In, elem_of_seqZ. lia.
Qed.

(** [Infinity] plus a number that is not negative is [Infinity], or NaN
    when the number is NaN. *)
Lemma sum_overflown (l : list Double) (a : Double) :
  a = S754_infinity false \/ a = S754_nan -> Forall nonneg l ->
  fold_left (fun sum exp => SFadd 53 1024 sum exp) l a = S754_infinity false
  \/ fold_left (fun sum exp => SFadd 53 1024 sum exp) l a = S754_nan.
Proof.
  intros Ha Hl. revert a Ha.
  induction Hl as [|b l Hb Hl IH]; intros a Ha; [exact Ha|].
  cbn [fold_left]. apply IH.
  destruct Ha as [-> | ->]; [|right; reflexivity].
  destruct b as [sb|sb| |sb mb eb]; cbn [nonneg] in Hb; subst;
    (left; reflexivity) || (right; reflexivity).
Qed.

Lemma sum_nan (l : list Double) :
  fold_left (fun sum exp => SFadd 53 1024 sum exp) l S754_nan = S754_nan.
Proof. induction l as [|b l IH]; [reflexivity|exact IH]. Qed.

Lemma candidate_evaluations g tg cycle e :
  In e (sortEvaluations
          (map (fun dir => (dir, neuralEvaluateDirection g tg cycle dir))
             (getSafeDirections tg cycle))) ->
  15 <= snd e <= 411.
Proof.
  intros He. rewrite sortEvaluations_perm in He.
  apply in_map_iff in He as (d & <- & Hd).
  apply (candidate_features g tg cycle d Hd).
Qed.

(** X13.  In double arithmetic the softmax is lost once the best score
    reaches 355: [Math.exp(score / 0.5)] is then [Infinity], the sum of
    the exponentials is [Infinity] (or NaN), and the first probability,
    [Infinity] divided by it, is NaN.  The probabilities then add up to
    NaN, no comparison [random <= cumulative] holds, the loop ends without
    returning, and [makeAIDecision] returns the best-scored candidate by
    its last [return], whatever [Math.random()] returned.  This holds for
    every engine's [Math.exp]. *)
Theorem overflow_makes_the_choice_greedy {P} (mexp : Double -> Double)
    (draws : nat -> Double) (boom : Z -> Z -> list Double -> list P)
    (age : list P -> list P) g tg n cycle e rest :
  hostExp mexp ->
  sortEvaluations
    (map (fun dir => (dir, neuralEvaluateDirection g tg cycle dir))
       (getSafeDirections tg cycle)) = e :: rest ->
  355 <= snd e ->
  let W := Doubles mexp draws boom age in
  (sumExp W (e :: rest) = S754_infinity false
   \/ sumExp W (e :: rest) = S754_nan)
  /\ probabilities W (e :: rest) !! 0%nat = Some S754_nan
  /\ fold_left (nadd W) (probabilities W (e :: rest)) (ofZ W 0) = S754_nan
  /\ (forall rnd,
        selectLoop W (e :: rest) (probabilities W (e :: rest)) rnd (ofZ W 0)
        = None)
  /\ makeAIDecision W g tg n cycle = (fst e, S n).
Proof.
  intros Hexp Hsorted Hbest W.
  assert (15 <= snd e <= 411) as Hrange.
  { apply (candidate_evaluations g tg cycle). rewrite Hsorted. by left. }
  assert (nexp W (ndiv W (ofZ W (snd e)) (temperature W))
          = S754_infinity false) as Hfirst.
  { apply (exp_overflow _ Hexp), overflow_scores. lia. }
  assert (sumExp W (e :: rest) = S754_infinity false
          \/ sumExp W (e :: rest) = S754_nan) as Hsum.
  { unfold sumExp, expScores. cbn [map fold_left]. rewrite Hfirst.
    apply sum_overflown; [left; reflexivity|].
    apply (expScores_nonneg mexp draws boom age Hexp rest). }
  assert (exists probs, probabilities W (e :: rest) = S754_nan :: probs)
    as [probs Hprobs].
  { exists (map (fun exp => ndiv W exp (sumExp W (e :: rest)))
              (expScores W rest)).
    unfold probabilities at 1. unfold expScores at 1.
    cbn [map]. rewrite Hfirst.
    change (ndiv W (S754_infinity false) (sumExp W (e :: rest)))
      with (SFdiv 53 1024 (S754_infinity false) (sumExp W (e :: rest))).
    destruct Hsum as [Hs | Hs]; rewrite Hs; reflexivity. }
  assert (forall rnd,
            selectLoop W (e :: rest) (probabilities W (e :: rest)) rnd
              (ofZ W 0) = None) as Hloop.
  { intros rnd. rewrite Hprobs. apply selectLoop_first_nan. }
  split; [exact Hsum|].
  split; [rewrite Hprobs; reflexivity|].
  split; [rewrite Hprobs; apply sum_nan|].
  split; [exact Hloop|].
  unfold makeAIDecision.
  destruct (getSafeDirections tg cycle) as [|d l] eqn:E;
    [discriminate Hsorted|].
  rewrite Hsorted. unfold softmaxSelect. fold W. rewrite Hloop. reflexivity.
Qed.

Lemma overflow_makes_the_choice_greedy_witness :
  let s := zeroRun ZeroDraws 15 in
  exists c,
    (hostExp Math_exp
     /\ sortEvaluations
          (map (fun dir =>
                  (dir, neuralEvaluateDirection (grid s) (trailGrid s) c dir))
             (getSafeDirections (trailGrid s) c))
        = (RIGHT, 382) :: [(LEFT, 354); (DOWN, 234)]
     /\ 355 <= 382)
    /\ makeAIDecision ZeroDraws (grid s) (trailGrid s) (rng s) c
       = (RIGHT, S (rng s)).
Proof.
  cbv zeta.
  assert (exists c,
    cycles (zeroRun ZeroDraws 15) !! 0%nat = Some c
    /\ sortEvaluations
         (map (fun dir =>
                 (dir, neuralEvaluateDirection (grid (zeroRun ZeroDraws 15))
                         (trailGrid (zeroRun ZeroDraws 15)) c dir))
            (getSafeDirections (trailGrid (zeroRun ZeroDraws 15)) c))
       = (RIGHT, 382) :: [(LEFT, 354); (DOWN, 234)]) as (c & _ & Hsorted).
  { rewrite zeroRun_agree. eexists.
    split; [vm_compute; reflexivity|]. vm_compute. reflexivity. }
  assert (355 <= 382) as Hbest by lia.
  exists c.
  split; [exact (conj Math_exp_hostExp (conj Hsorted Hbest))|].
  destruct (overflow_makes_the_choice_greedy Math_exp
              (fun _ => S754_zero false) sparkBurst sparkAge
              (grid (zeroRun ZeroDraws 15)) (trailGrid (zeroRun ZeroDraws 15))
              (rng (zeroRun ZeroDraws 15)) c (RIGHT, 382)
              [(LEFT, 354); (DOWN, 234)] Math_exp_hostExp Hsorted Hbest)
    as (_ & _ & _ & _ & Hdecision).
  exact Hdecision.
Defined.

(** C9, at the failing input.  After 15 ticks of the game on the empty
    activity grid, the first cycle to decide in the next tick stands on
    (22, 2) and has the candidates RIGHT, LEFT and DOWN with the scores
    382, 354 and 234.  [Math.exp(382 / 0.5)] is [Infinity] and so is the
    sum of the exponentials; the probabilities are NaN, 0 and 0.  They add
    up to NaN, not to 1; no draw is at most a cumulative sum, and the
    heading is the one the last [return] of [makeAIDecision] gives. *)
Theorem softmax_overflows_in_play :
  let s := zeroRun ZeroDraws 15 in
  exists c,
    (reachable ZeroDraws s /\ state s = PLAYING
     /\ hd_error (aliveCycles s) = Some c /\ position c = mkPoint 22 2)
    /\ let evaluations :=
         sortEvaluations
           (map (fun dir =>
                   (dir, neuralEvaluateDirection (grid s) (trailGrid s) c dir))
              (getSafeDirections (trailGrid s) c)) in
       evaluations = [(RIGHT, 382); (LEFT, 354); (DOWN, 234)]
       /\ sumExp ZeroDraws evaluations = S754_infinity false
       /\ probabilities ZeroDraws evaluations
          = [S754_nan; S754_zero false; S754_zero false]
       /\ fold_left (nadd ZeroDraws) (probabilities ZeroDraws evaluations)
            (ofZ ZeroDraws 0) = S754_nan
       /\ (forall rnd,
             selectLoop ZeroDraws evaluations
               (probabilities ZeroDraws evaluations) rnd (ofZ ZeroDraws 0)
             = None)
       /\ makeAIDecision ZeroDraws (grid s) (trailGrid s) (rng s) c
          = (RIGHT, S (rng s)).
Proof.
  cbv zeta.
  assert (exists c,
    state (zeroRun ZeroDraws 15) = PLAYING
    /\ hd_error (aliveCycles (zeroRun ZeroDraws 15)) = Some c
    /\ position c = mkPoint 22 2
    /\ getSafeDirections (trailGrid (zeroRun ZeroDraws 15)) c
       = [DOWN; LEFT; RIGHT]
    /\ sortEvaluations
         (map (fun dir =>
                 (dir, neuralEvaluateDirection (grid (zeroRun ZeroDraws 15))
                         (trailGrid (zeroRun ZeroDraws 15)) c dir))
            (getSafeDirections (trailGrid (zeroRun ZeroDraws 15)) c))
       = [(RIGHT, 382); (LEFT, 354); (DOWN, 234)])
    as (c & H1 & H2 & H3 & Hsafe & Hsorted).
  { rewrite zeroRun_agree. eexists.
    split; [vm_compute; reflexivity|].
    split; [vm_compute; reflexivity|].
    vm_compute. repeat split; reflexivity. }
  assert (sumExp ZeroDraws [(RIGHT, 382); (LEFT, 354); (DOWN, 234)]
          = S754_infinity false
          /\ probabilities ZeroDraws [(RIGHT, 382); (LEFT, 354); (DOWN, 234)]
             = [S754_nan; S754_zero false; S754_zero false])
    as [Hsum Hprobs].
  { unfold ZeroDraws. rewrite Math_exp_unseal. vm_compute.
    split; reflexivity. }
  assert (forall rnd,
            selectLoop ZeroDraws [(RIGHT, 382); (LEFT, 354); (DOWN, 234)]
              [S754_nan; S754_zero false; S754_zero false] rnd
              (ofZ ZeroDraws 0) = None) as Hloop.
  { intros rnd. unfold ZeroDraws. apply selectLoop_first_nan. }
  exists c.
  split; [exact (conj (zeroRun_reachable _ _) (conj H1 (conj H2 H3)))|].
  rewrite Hsorted, Hprobs.
  split; [reflexivity|]. split; [exact Hsum|]. split; [reflexivity|].
  split; [reflexivity|]. split; [exact Hloop|].
  unfold makeAIDecision. rewrite Hsafe.
  rewrite Hsafe in Hsorted. rewrite Hsorted. unfold softmaxSelect.
  rewrite Hprobs, Hloop. reflexivity.
Qed.
